(** * ilmsdump: the resumable download orchestrator

    A shallow embedding of [src/ilmsdump/__init__.py]:
    - [Client.request], the retrying transport;
    - [Downloadable] and its dataclasses, with [as_id_string];
    - [Downloader]: [mark_total], [mark_completed], [create_resume_file],
      [run] and [finish];
    - the resume part of [main].

    Python integers are unbounded: identifiers and durations are [Z],
    counters are [nat].  Dictionaries and sets are stdpp's [gmap] and
    [gset]; the deque of pending items is a list whose head is the left
    end. *)

From stdpp Require Import base gmap strings list pretty.
From Stdlib Require Import ZArith Lia.

Local Open Scope string_scope.
Local Open Scope list_scope.

(** ** The retrying transport: [Client.request] *)

Module Transport.

(** What one [self.session.request(...)] can do.  The session is built with
    [raise_for_status=True], so a server status of 400 or above surfaces as
    [aiohttp.ClientResponseError]; anything else that goes wrong (connection
    reset, timeout, ...) is another exception class, which the [except]
    clause of [request] does not catch. *)
Inductive Exc :=
| ClientResponseError (status : Z)
| OtherException (name : string).

Inductive Attempt (Response : Type) :=
| Responds (r : Response)
| Throws (e : Exc).
Arguments Responds {Response} r.
Arguments Throws {Response} e.

(** How a call of [request] ends. *)
Inductive Result (Response : Type) :=
| Yielded (r : Response)
| Raised (e : Exc).
Arguments Yielded {Response} r.
Arguments Raised {Response} e.

(** The observable behaviour of one call: its result, the arguments of the
    successive [asyncio.sleep] calls, and the number of times
    [self.session.request] was entered. *)
Record Run (Response : Type) := {
  result : Result Response;
  slept : list Z;
  attempts : nat;
}.
Arguments result {Response} r.
Arguments slept {Response} r.
Arguments attempts {Response} r.

Section Request.
Context {Response : Type}.

(** The server: the outcome of the [k]-th attempt of this call. *)
Variable session_request : nat -> Attempt Response.

(** The body of [while True], with the loop variables [retries] and
    [sleep_duration]; [k] counts the attempts made before this one and
    [zs] are the sleeps done so far.  [retries] only goes down, and at [0]
    the handler raises: the recursion is on it. *)
Fixpoint request_loop (retries : nat) (sleep_duration : Z)
         (k : nat) (zs : list Z) : Run Response :=
  match session_request k with
  | Responds r =>
      {| result := Yielded r; slept := zs; attempts := S k |}
  | Throws (ClientResponseError status) =>
      match retries with
      | O => (* if not retries: raise *)
          {| result := Raised (ClientResponseError status);
             slept := zs; attempts := S k |}
      | S retries' =>
          if negb (status =? 400)%Z then (* if exc.status != 400: raise *)
            {| result := Raised (ClientResponseError status);
               slept := zs; attempts := S k |}
          else
            request_loop retries' (sleep_duration * 4)%Z
                         (S k) (zs ++ [sleep_duration])
      end
  | Throws e =>
      {| result := Raised e; slept := zs; attempts := S k |}
  end.

Definition request : Run Response := request_loop 3 5%Z 0 [].
End Request.

(** The one error the handler retries on: a response error of status 400. *)
Definition transient : Exc := ClientResponseError 400.

(** A server that answers with the statuses of [errs], one per attempt, and
    then with [r]. *)
Definition failing_then {Response} (errs : list Z) (r : Response)
  : nat -> Attempt Response :=
  fun k => match errs !! k with
           | Some s => Throws (ClientResponseError s)
           | None => Responds r
           end.

End Transport.

(** ** Work items: [Downloadable] and its dataclasses *)

Module Engine.

(** [class Course]; the other items refer to their course by such a value. *)
Record CourseT := mkCourse {
  course_id : Z;
  serial : string;
  is_admin : bool;
  name : string;
}.

(** The dataclasses deriving from [Downloadable], one constructor each, with
    the fields in the order of their declaration.  [Score] and [GroupList]
    derive from [SinglePageDownloadable] and hold a course only; the abstract
    [SinglePageDownloadable] itself is never built by the program.  The
    [url : yarl.URL] of a [Video] is kept in its textual form. *)
Inductive Downloadable :=
| Course (c : CourseT)
| Announcement (id : Z) (title : string) (course : CourseT)
| Material (id : Z) (title : string) (type : string) (course : CourseT)
| Discussion (id : Z) (title : string) (course : CourseT)
| Homework (id : Z) (title : string) (course : CourseT)
| SubmittedHomework (id : Z) (title : string) (by_ : string)
                    (course : CourseT) (comment : option string)
| Score (course : CourseT)
| GroupList (course : CourseT)
| Attachment (id : Z) (title : string) (parent : Downloadable)
| Video (id : Z) (url : string).

(** [item.__class__.__name__] *)
Definition class_name (item : Downloadable) : string :=
  match item with
  | Course _ => "Course"
  | Announcement _ _ _ => "Announcement"
  | Material _ _ _ _ => "Material"
  | Discussion _ _ _ => "Discussion"
  | Homework _ _ _ => "Homework"
  | SubmittedHomework _ _ _ _ _ => "SubmittedHomework"
  | Score _ => "Score"
  | GroupList _ => "GroupList"
  | Attachment _ _ _ => "Attachment"
  | Video _ _ => "Video"
  end.

(** [item.STATS_NAME] *)
Definition STATS_NAME (item : Downloadable) : string :=
  match item with
  | Course _ => "Course"
  | Attachment _ _ _ | Video _ _ => "File"
  | _ => "Page"
  end.

(** [item.id]; a property returning [self.course.id] for the single-page
    items. *)
Definition item_id (item : Downloadable) : Z :=
  match item with
  | Course c => course_id c
  | Announcement id _ _ | Material id _ _ _ | Discussion id _ _
  | Homework id _ _ | SubmittedHomework id _ _ _ _
  | Attachment id _ _ | Video id _ => id
  | Score c | GroupList c => course_id c
  end.

(** [Downloadable.as_id_string]: [f'{self.__class__.__name__}-{self.id}'] *)
Definition as_id_string (item : Downloadable) : string :=
  class_name item +:+ "-" +:+ pretty (item_id item).

(** ** The downloader *)

(** [class Stat] *)
Record Stat := mkStat { total : nat; completed : nat }.

(** The dictionary pickled into a resume file:
    [dict(items=items, ignore=ignore)]. *)
Record ResumeData := mkResume {
  resume_items : list Downloadable;
  resume_ignore : gset string;
}.

(** How a run of [Downloader.run] ends: the loop drains ([Completed]), the
    interrupt branch returns after printing the resume file ([Interrupted]),
    or [DownloadFailed] is raised with the resume file and the item in its
    message. *)
Inductive Outcome :=
| Completed
| Interrupted (resume_file : string) (item : Downloadable)
| DownloadFailed (resume_file : string) (item : Downloadable).

(** What iterating [item.download(self.client)] does: the children it yields
    and whether it raises after the last of them. *)
Record Download := mkDownload {
  yielded : list Downloadable;
  raises : bool;
}.

Section Downloader.
(** Python's [bytes], with [pickle] and [hashlib] over them.

    [pickle_dumps] is [pickle.dumps] as the process of the run at hand
    computes it on the objects that run holds.  The bytes are not a function
    of the value alone: [pickle] writes the rules in the order the process
    iterates over the set, which follows the hash seed of the process, and
    writes a reference where an object is met again, so that equal values
    held in other objects, or in another process, may give other bytes.  A
    run pickles once, when it stops; statements about two saves take two
    such functions. *)
Context {bytes : Type}.
Variable pickle_dumps : ResumeData -> bytes.
Variable sha256_hexdigest : bytes -> string.
(** [self.client.data_dir], in textual form. *)
Variable data_dir : string.

(** The collaborators of a run: the expansion of an item, whether writing
    its [meta.json] raises, and what [interrupted.is_set()] answers when
    it is polled after the [n]-th completed item. *)
Variable download : Downloadable -> Download.
Variable meta_write_raises : Downloadable -> bool.
Variable interrupted_is_set : nat -> bool.

(** The attributes of the [Downloader] ([stats], [fullstats], [done]), the
    local deque [items] of [run], and in [files] the resume files of the
    data directory: the files [resume-*.pickle] at its root, by path.  What
    lies in the directories of the items (the [meta.json] files, and what
    the downloads write there) is not in [files].
    Two fields only record what happened: [expanded] lists the items whose
    [download] was entered, in order, and [metas] the [meta.json] files
    written, each as the identity of its item with the [children] entry. *)
Record State := mkState {
  items : list Downloadable;
  stats : gmap string Stat;
  fullstats : gmap string nat;
  files : gmap string bytes;
  done : bool;
  expanded : list Downloadable;
  metas : list (string * list string);
}.

(** [collections.defaultdict(Stat)]: a missing key reads as [Stat()]. *)
Definition stat_of (s : gmap string Stat) (k : string) : Stat :=
  default (mkStat 0 0) (s !! k).

(** [collections.Counter]: a missing key reads as [0]. *)
Definition count_of (c : gmap string nat) (k : string) : nat :=
  default 0 (c !! k).

Definition with_items (l : list Downloadable) (st : State) : State :=
  mkState l (stats st) (fullstats st) (files st) (done st)
          (expanded st) (metas st).

(** [Downloader.mark_total] *)
Definition mark_total (item : Downloadable) (st : State) : State :=
  let k := STATS_NAME item in
  let s := stat_of (stats st) k in
  mkState (items st)
          (<[k := mkStat (S (total s)) (completed s)]> (stats st))
          (fullstats st) (files st) (done st) (expanded st) (metas st).

(** [Downloader.mark_completed] *)
Definition mark_completed (item : Downloadable) (st : State) : State :=
  let k := STATS_NAME item in
  let s := stat_of (stats st) k in
  let c := class_name item in
  mkState (items st)
          (<[k := mkStat (total s) (S (completed s))]> (stats st))
          (<[c := S (count_of (fullstats st) c)]> (fullstats st))
          (files st) (done st) (expanded st) (metas st).

(** [for child in ...: self.mark_total(child)] *)
Definition mark_all_total (l : list Downloadable) (st : State) : State :=
  foldl (fun st item => mark_total item st) st l.

(** The name of the resume file of a blob:
    [self.client.data_dir / f'resume-{sha256[:7]}.pickle'] *)
Definition resume_path (b : bytes) : string :=
  data_dir +:+ "/" +:+ "resume-"
           +:+ String.substring 0 7 (sha256_hexdigest b) +:+ ".pickle".

(** [Downloader.create_resume_file]: the path and the state after
    [write_bytes], for the bytes that the process of this run pickles.
    [write_bytes] truncates or creates the file, so that a file of that name
    is replaced.  The write is taken to succeed: when it raises, [run]
    raises that error and ends in none of its three outcomes. *)
Definition create_resume_file (data : ResumeData) (st : State)
  : string * State :=
  let b := pickle_dumps data in
  let resume_file := resume_path b in
  (resume_file,
   mkState (items st) (stats st) (fullstats st)
           (<[resume_file := b]> (files st))
           (done st) (expanded st) (metas st)).

(** [Downloader.finish]: sets [done], which stops the reporting task, and
    awaits that task, which is taken to have ended without an error: an
    error of [update_rates] would come out of this [await]. *)
Definition finish (st : State) : State :=
  mkState (items st) (stats st) (fullstats st) (files st) true
          (expanded st) (metas st).

(** [item.__class__.__name__ in ignore or item.as_id_string() in ignore] *)
Definition ignored (ignore : gset string) (item : Downloadable) : bool :=
  bool_decide (class_name item ∈ ignore)
  || bool_decide (as_id_string item ∈ ignore).

(** Entering [item.download]: the item is recorded and every child is
    counted as it arrives, also those yielded before a fault. *)
Definition enter_download (item : Downloadable) (st : State) : State :=
  let st := mark_all_total (yielded (download item)) st in
  mkState (items st) (stats st) (fullstats st) (files st) (done st)
          (expanded st ++ [item]) (metas st).

(** The [with ... open('w') ...: json.dump(...)] of a completed item: the
    file goes to the directory of the item, [get_dir_for(item)], and is
    recorded in [metas]; it is no resume file and [files] keeps none of it. *)
Definition write_meta (item : Downloadable) (st : State) : State :=
  mkState (items st) (stats st) (fullstats st) (files st) (done st)
          (expanded st)
          (metas st ++ [(as_id_string item,
                         as_id_string <$> yielded (download item))]).

(** One turn of [while items:], or leaving the loop. *)
Inductive Step :=
| Continue (st : State)
| Stop (o : Outcome) (st : State).

Definition step (ignore : gset string) (st : State) : Step :=
  match items st with
  | [] => Stop Completed (finish st)
  | item :: rest =>
      if ignored ignore item then
        Continue (with_items rest st)
      else
        let st1 := enter_download item st in
        if raises (download item) || meta_write_raises item then
          let '(resume_file, st2) :=
            create_resume_file (mkResume (items st1) ignore) st1 in
          Stop (DownloadFailed resume_file item) (finish st2)
        else
          let item_children := yielded (download item) in
          let st2 := write_meta item st1 in
          let st3 := with_items (rest ++ item_children) st2 in
          let st4 := mark_completed item st3 in
          if interrupted_is_set (length (expanded st4)) then
            let '(resume_file, st5) :=
              create_resume_file (mkResume (items st4) ignore) st4 in
            Stop (Interrupted resume_file item) (finish st5)
          else
            Continue st4
  end.

(** The loop, given [fuel] turns. *)
Fixpoint run_loop (fuel : nat) (ignore : gset string) (st : State)
  : option (Outcome * State) :=
  match step ignore st with
  | Stop o st' => Some (o, st')
  | Continue st' =>
      match fuel with
      | O => None
      | S fuel' => run_loop fuel' ignore st'
      end
  end.

(** A fresh [Downloader] over the resume files [fs] of the data directory,
    with the deque built from the seeds. *)
Definition init (fs : gmap string bytes) (seeds : list Downloadable) : State :=
  mkState seeds ∅ ∅ fs false [] [].

(** [Downloader.run] *)
Definition run (fuel : nat) (fs : gmap string bytes)
           (seeds : list Downloadable) (ignore : gset string)
  : option (Outcome * State) :=
  run_loop fuel ignore (mark_all_total seeds (init fs seeds)).

(** The states between two turns of the loop of a run. *)
Inductive reachable (fs : gmap string bytes) (seeds : list Downloadable)
          (ignore : gset string) : State -> Prop :=
| reach_start :
    reachable fs seeds ignore (mark_all_total seeds (init fs seeds))
| reach_turn st st' :
    reachable fs seeds ignore st ->
    step ignore st = Continue st' ->
    reachable fs seeds ignore st'.

(** [pickle.load] on the blob of a file; [None] when it does not unpickle. *)
Variable pickle_load : bytes -> option ResumeData.

(** The resume part of [main]: [targets] and [ignores] after
    [pickle.load], for the command-line rules [ignore]; [None] when the
    file is missing or does not unpickle. *)
Definition main_resume (fs : gmap string bytes) (resume : string)
           (ignore : gset string)
  : option (list Downloadable * gset string) :=
  b ← fs !! resume;
  resmue_data ← pickle_load b;
  Some (([] ++ resume_items resmue_data)%list,
        ignore ∪ resume_ignore resmue_data).

(** The tail of [main] for a resumed download (no course given, [--dry]
    not set): [d.run(targets, ignore=set(ignore))] when there are targets.
    The call passes the rules of the command line; [ignores], the set the
    rules of the resume file were added to, is not read again. *)
Inductive MainResult :=
| CannotLoad
| NothingToDo
| Ran (r : option (Outcome * State)).

Definition main_resumed (fuel : nat) (fs : gmap string bytes)
           (resume : string) (ignore : gset string) : MainResult :=
  match main_resume fs resume ignore with
  | None => CannotLoad
  | Some (targets, ignores) =>
      match targets with
      | [] => NothingToDo
      | _ :: _ => Ran (run fuel fs targets ignore)
      end
  end.

(** ** Vocabulary of the properties *)

(** The counters of a statistics name. *)
Definition total_of (st : State) (k : string) : nat :=
  total (stat_of (stats st) k).
Definition completed_of (st : State) (k : string) : nat :=
  completed (stat_of (stats st) k).

(** The number of items of a list counted under the name [k]. *)
Definition pending_of (k : string) (l : list Downloadable) : nat :=
  length (filter (fun item => STATS_NAME item = k) l).

(** The states seen from a loop head [st] until the next one: while the
    children of the head item arrive and are counted one by one, and when
    the turn ends, with the loop going on or stopping. *)
Inductive within_turn (ignore : gset string) (st : State) : State -> Prop :=
| turn_child item rest n :
    items st = item :: rest ->
    ignored ignore item = false ->
    within_turn ignore st
                (mark_all_total (take n (yielded (download item))) st)
| turn_next st' :
    step ignore st = Continue st' -> within_turn ignore st st'
| turn_stop o st' :
    step ignore st = Stop o st' -> within_turn ignore st st'.

(** The states of a run: while the seeds are counted, at the loop heads, and
    within the turns. *)
Inductive observable (fs : gmap string bytes) (seeds : list Downloadable)
          (ignore : gset string) : State -> Prop :=
| obs_seeds n :
    observable fs seeds ignore (mark_all_total (take n seeds) (init fs seeds))
| obs_head st :
    reachable fs seeds ignore st -> observable fs seeds ignore st
| obs_turn st st' :
    reachable fs seeds ignore st -> within_turn ignore st st' ->
    observable fs seeds ignore st'.

(** The discovery graph: the children an item yields, and the items reached
    from the seeds through them. *)
Definition children (item : Downloadable) : list Downloadable :=
  yielded (download item).

Inductive discovered (seeds : list Downloadable) : Downloadable -> Prop :=
| disc_seed s : s ∈ seeds -> discovered seeds s
| disc_child x c :
    discovered seeds x -> c ∈ children x -> discovered seeds c.

(** No cycle, and no infinite descent: the discovered items are ranked, each
    above its children. *)
Definition acyclic (seeds : list Downloadable) : Prop :=
  exists rank : Downloadable -> nat,
    forall x c, discovered seeds x -> c ∈ children x -> rank c < rank x.

(** Every identity is discovered along one path only: the seeds have
    distinct identities, so have the children of an item, two items yielding
    children of the same identity have the same identity, and no child has
    the identity of a seed. *)
Record forest (seeds : list Downloadable) : Prop := mkForest {
  forest_seeds : NoDup (as_id_string <$> seeds);
  forest_children x :
    discovered seeds x -> NoDup (as_id_string <$> children x);
  forest_parent x y c d :
    discovered seeds x -> discovered seeds y ->
    c ∈ children x -> d ∈ children y ->
    as_id_string c = as_id_string d -> as_id_string x = as_id_string y;
  forest_roots s x c :
    s ∈ seeds -> discovered seeds x -> c ∈ children x ->
    as_id_string s <> as_id_string c;
}.

(** The number of times [download] was entered on the identity of [x]. *)
Definition expansions_of (x : Downloadable) (st : State) : nat :=
  length (filter (fun y => as_id_string y = as_id_string x) (expanded st)).

(** The size of the tree below an item, cut at depth [n]. *)
Fixpoint weight (n : nat) (x : Downloadable) : nat :=
  match n with
  | O => 1
  | S n' => S (sum_list_with (weight n') (children x))
  end.

(** ** Invariants of the loop *)

(** Every pending item has been counted in [total] and not yet in
    [completed]. *)
Definition counted (st : State) : Prop :=
  forall k, completed_of st k + pending_of k (items st) <= total_of st k.

(** The items a run has come across when it has expanded [done_]: the
    seeds and the children of the items expanded. *)
Definition met (seeds done_ : list Downloadable) (x : Downloadable) : Prop :=
  x ∈ seeds \/ exists w, w ∈ done_ /\ x ∈ children w.

(** At a loop head of a run over a forest, with [done_] expanded and [queue]
    pending: the expanded and the pending items have distinct identities,
    all of them were met and discovered, no child of a pending item has an
    identity seen already, and every item met is expanded, pending or
    ignored. *)
Record tidy (seeds : list Downloadable) (ignore : gset string)
       (done_ queue : list Downloadable) : Prop := mkTidy {
  tidy_nodup : NoDup (as_id_string <$> (done_ ++ queue));
  tidy_origin x : x ∈ done_ ++ queue -> met seeds done_ x;
  tidy_discovered x : x ∈ done_ ++ queue -> discovered seeds x;
  tidy_fresh x c :
    x ∈ queue -> c ∈ children x ->
    as_id_string c ∉ as_id_string <$> (done_ ++ queue);
  tidy_kept x :
    met seeds done_ x ->
    x ∈ done_ \/ x ∈ queue \/ ignored ignore x = true;
}.

(** The measure of the queue that goes down at every turn. *)
Definition queue_weight (rank : Downloadable -> nat)
           (l : list Downloadable) : nat :=
  sum_list_with (fun x => weight (rank x) x) l.

(** ** The queue as a sequence *)

(** Everything a run has put on its queue when it has expanded [done_]: the
    seeds, then the children of each expanded item, in the order of the
    expansions. *)
Definition enqueued (seeds done_ : list Downloadable) : list Downloadable :=
  seeds ++ concat (children <$> done_).

(** The loop walks that sequence from left to right: the pending items are
    what is left of it after its first [n] items, and the expanded items
    are those of the first [n] that no rule ignores. *)
Definition in_order (seeds : list Downloadable) (ignore : gset string)
           (st : State) : Prop :=
  exists n,
    expanded st
    = filter (fun x => ignored ignore x = false)
             (take n (enqueued seeds (expanded st)))
    /\ items st = drop n (enqueued seeds (expanded st)).

(** The [meta.json] entry of a completed item. *)
Definition meta_of (item : Downloadable) : string * list string :=
  (as_id_string item, as_id_string <$> children item).

(** ** The states of a run, in the order of time *)

(** The states gone through while the children of the head item arrive:
    after the first of them is counted, after the second, and so on to the
    last one yielded. *)
Definition while_downloading (ignore : gset string) (st : State)
  : list State :=
  match items st with
  | [] => []
  | item :: _ =>
      if ignored ignore item then []
      else
        (fun n => mark_all_total (take n (yielded (download item))) st)
          <$> seq 1 (length (yielded (download item)))
  end.

(** The states of the loop from the loop head [st] on, for [fuel] turns:
    the loop head, the states while its item is downloaded, then the next
    loop head and so on, up to the state the run stops in. *)
Fixpoint history (fuel : nat) (ignore : gset string) (st : State)
  : list State :=
  st :: while_downloading ignore st
     ++ match step ignore st with
        | Stop _ st' => [st']
        | Continue st' =>
            match fuel with
            | O => []
            | S fuel' => history fuel' ignore st'
            end
        end.

(** The states of a run from its start: those while the seeds are counted,
    one by one, then those of the loop. *)
Definition run_history (fuel : nat) (fs : gmap string bytes)
           (seeds : list Downloadable) (ignore : gset string) : list State :=
  ((fun n => mark_all_total (take n seeds) (init fs seeds))
     <$> seq 0 (length seeds))
  ++ history fuel ignore (mark_all_total seeds (init fs seeds)).

(** No counter of [a] is above the same counter of [b]. *)
Definition stats_le (a b : State) : Prop :=
  forall k, total_of a k <= total_of b k
            /\ completed_of a k <= completed_of b k.

(** A list of states along which no counter ever goes down. *)
Definition never_decreasing (l : list State) : Prop :=
  forall i j a b, i <= j -> l !! i = Some a -> l !! j = Some b -> stats_le a b.

End Downloader.

End Engine.

(** ** Sample collaborators

    Concrete collaborators on which the definitions above evaluate.  The
    blob of a resume file is taken to be the pickled value itself, which
    unpickles to itself, and every blob hashes to the same digest. *)

Module Sample.
Import Engine.

Definition pickle_dumps (d : ResumeData) : ResumeData := d.
Definition pickle_load (b : ResumeData) : option ResumeData := Some b.
Definition sha256_hexdigest (_ : ResumeData) : string :=
  "9f86d081884c7d659a2feaa0c55ad015a3bf4f1b2b0b822cd15d6c15b0f00a08".
Definition data_dir : string := "/home/u/ilmsdump.out".

Definition never (_ : nat) : bool := false.
Definition always (_ : nat) : bool := true.
Definition no_fault (_ : Downloadable) : bool := false.

Definition c74 : CourseT := mkCourse 74 "10910CS" false "Compilers".
Definition X : Downloadable := Course c74.
Definition Y : Downloadable := Announcement 5 "Midterm" c74.
Definition Z' : Downloadable := Video 9 "http://lms.csmu.edu.tw/v/9.mp4".
Definition hw : Downloadable := Homework 3 "Parser" c74.

(** A course with one homework, nothing else. *)
Definition download_flat (item : Downloadable) : Download :=
  match item with
  | Course _ => mkDownload [hw] false
  | _ => mkDownload [] false
  end.

(** The same, with the expansion of the course raising after it has
    yielded the homework. *)
Definition download_faulty (item : Downloadable) : Download :=
  match item with
  | Course _ => mkDownload [hw] true
  | _ => mkDownload [] false
  end.

(** Two announcements of the course that link the same attachment. *)
Definition a1 : Downloadable := Announcement 1 "Syllabus" c74.
Definition a2 : Downloadable := Announcement 2 "Week 1" c74.

Definition download_shared (item : Downloadable) : Download :=
  match item with
  | Course _ => mkDownload [a1; a2] false
  | Announcement _ _ _ =>
      mkDownload [Attachment 7 "slides.pdf" item] false
  | _ => mkDownload [] false
  end.

(** The depth of an item in either graph: a course is above its pages, a
    page above its files. *)
Definition rank (item : Downloadable) : nat :=
  match item with
  | Course _ => 2
  | Attachment _ _ _ | Video _ _ => 0
  | _ => 1
  end.

Definition run_with (download : Downloadable -> Download)
           (interrupted_is_set : nat -> bool) :=
  run pickle_dumps sha256_hexdigest data_dir
      download no_fault interrupted_is_set.
Definition step_with (download : Downloadable -> Download)
           (interrupted_is_set : nat -> bool) :=
  step pickle_dumps sha256_hexdigest data_dir
       download no_fault interrupted_is_set.
Definition run_loop_with (download : Downloadable -> Download)
           (interrupted_is_set : nat -> bool) :=
  run_loop pickle_dumps sha256_hexdigest data_dir
           download no_fault interrupted_is_set.
Definition start_with (l : list Downloadable) : State :=
  mark_all_total l (init (∅ : gmap string ResumeData) l).

(** A snapshot with a rule that skips every video. *)
Definition snapshot : ResumeData := mkResume [Z'; Y] {["Video"]}.
Definition saved : string * State :=
  create_resume_file pickle_dumps sha256_hexdigest data_dir
                     snapshot (start_with []).
(** The outcome and the last state of a sample run. *)
Definition outcome_of (r : option (Outcome * @State ResumeData)) : Outcome :=
  match r with
  | Some (o, _) => o
  | None => Completed
  end.
Definition state_of (r : option (Outcome * @State ResumeData)) : State :=
  match r with
  | Some (_, st) => st
  | None => start_with []
  end.

(** The second loop head of a run over [X; Y]. *)
Definition second_head : State :=
  match step_with download_flat never ∅ (start_with [X; Y]) with
  | Continue st | Stop _ st => st
  end.

(** Three runs over [X; Y; Z']: one that drains the queue, one interrupted
    when [X] has completed, one failing on [X]. *)
Definition drained := run_with download_flat never 5 ∅ [X; Y; Z'] ∅.
Definition stopped := run_with download_flat always 5 ∅ [X; Y; Z'] ∅.
Definition failed := run_with download_faulty never 5 ∅ [X; Y; Z'] ∅.

(** Two processes that pickle the same way but for the order in which they
    iterate over the set of rules: the blob keeps the items and the rules in
    that order.  [digest] stands for a digest that tells the two blobs
    apart, as SHA-256 does: the names of the rules, one after the other. *)
Definition dumps_in (iteration : gset string -> list string)
           (d : ResumeData) : list Downloadable * list string :=
  (resume_items d, iteration (resume_ignore d)).
Definition digest (b : list Downloadable * list string) : string :=
  foldr String.append "" b.2.
Definition first_process : gset string -> list string := elements.
Definition second_process (rules : gset string) : list string :=
  reverse (elements rules).

(** A snapshot with two rules. *)
Definition two_rules : ResumeData := mkResume [Z'; Y] {["Video"; "Course"]}.

(** A new downloader over an empty data directory, for those blobs. *)
Definition fresh : @State (list Downloadable * list string) := init ∅ [].

End Sample.

(** ** Where items are stored: [Client.get_dir_for] and [get_meta] *)

Module Storage.
Import Engine.

(** [str.lower] on a character: the letters [A] to [Z] move to [a] to [z]. *)
Definition lower_ascii (c : Ascii.ascii) : Ascii.ascii :=
  let n := Ascii.nat_of_ascii c in
  if Nat.leb 65 n && Nat.leb n 90 then Ascii.ascii_of_nat (n + 32) else c.

Fixpoint lower (s : string) : string :=
  match s with
  | EmptyString => EmptyString
  | String c s' => String (lower_ascii c) (lower s')
  end.

(** [Client.get_dir_for]: [data_dir / class name in lower case / str(id)],
    a path being the list of its parts, as [pathlib] keeps it. *)
Definition get_dir_for (data_dir : list string) (item : Downloadable)
  : list string :=
  data_dir ++ [lower (class_name item); pretty (item_id item)].

(** The values of the attributes of an item once flattened, and what
    [json.dump] is given for the key [children]. *)
Inductive Value :=
| VInt (n : Z)
| VStr (s : string)
| VBool (b : bool)
| VNone
| VList (l : list string).

(** [flatten_attribute] on an item: its identity string. *)
Definition flatten_item (item : Downloadable) : Value :=
  VStr (as_id_string item).

Section Meta.
(** [os.path.basename], and [replace_illegal_characters_in_path] of the
    module [ilmsdump.fileutil], whose source is not at hand. *)
Variable basename : string -> string.
Variable replace_illegal_characters_in_path : string -> string -> string.

(** [Attachment.suggest_filename], on the title of the attachment. *)
Definition suggest_filename (title : string) : string :=
  let name := basename title in
  if decide (name = "meta.json") then "meta_.json"
  else replace_illegal_characters_in_path name "_".

(** [Downloadable.get_meta]: the dataclass fields of the item, in the order
    of their declaration, each with its flattened value.  The single-page
    items have the one field [course]: their [id] is a property.
    [Attachment.get_meta] adds the key [saved_filename]. *)
Definition get_meta (item : Downloadable) : list (string * Value) :=
  match item with
  | Course c =>
      [("id", VInt (course_id c)); ("serial", VStr (serial c));
       ("is_admin", VBool (is_admin c)); ("name", VStr (name c))]
  | Announcement id title course
  | Discussion id title course
  | Homework id title course =>
      [("id", VInt id); ("title", VStr title);
       ("course", flatten_item (Course course))]
  | Material id title type course =>
      [("id", VInt id); ("title", VStr title); ("type", VStr type);
       ("course", flatten_item (Course course))]
  | SubmittedHomework id title by_ course comment =>
      [("id", VInt id); ("title", VStr title); ("by", VStr by_);
       ("course", flatten_item (Course course));
       ("comment", match comment with Some s => VStr s | None => VNone end)]
  | Score course | GroupList course =>
      [("course", flatten_item (Course course))]
  | Attachment id title parent =>
      [("id", VInt id); ("title", VStr title);
       ("parent", flatten_item parent);
       ("saved_filename", VStr (suggest_filename title))]
  | Video id url => [("id", VInt id); ("url", VStr url)]
  end.

(** Setting a key of a dictionary: the value is replaced where the key
    stands, or the pair is added at the end. *)
Fixpoint dict_set (k : string) (v : Value) (d : list (string * Value))
  : list (string * Value) :=
  match d with
  | [] => [(k, v)]
  | (k', v') :: d' =>
      if decide (k' = k) then (k, v) :: d' else (k', v') :: dict_set k v d'
  end.

(** The dictionary written to [meta.json]:
    [{**item.get_meta(), 'children': [c.as_id_string() for c in ...]}] *)
Definition meta_json (item : Downloadable) (item_children : list Downloadable)
  : list (string * Value) :=
  dict_set "children" (VList (as_id_string <$> item_children))
           (get_meta item).
End Meta.

End Storage.

(** ** Attachments of a page: [get_attachments] *)

Module Scraping.
Import Engine.

(** An [a] element whose [href] starts with [/sys/read_attach.php], as
    [get_attachments] reads it: its text, the [id] of the query of its
    [href] as an integer ([None] when [url.query['id']] or [int] raises),
    and its [title] attribute. *)
Record Anchor := mkAnchor {
  a_text : option string;
  a_id : option Z;
  a_title : option string;
}.

Section Attachments.
(** [not s.strip()]: the text is made of white space only. *)
Variable strips_to_empty : string -> bool.

(** The loop of [get_attachments], with the set [ids] of the ids yielded so
    far: what it yields, and whether it raises after that. *)
Fixpoint attachments_from (parent : Downloadable) (ids : gset Z)
         (anchors : list Anchor) : Download :=
  match anchors with
  | [] => mkDownload [] false
  | a :: anchors' =>
      match a_text a with
      | None => attachments_from parent ids anchors'
      | Some text =>
          if strips_to_empty text then attachments_from parent ids anchors'
          else
            match a_id a with
            | None => mkDownload [] true
            | Some id_ =>
                if bool_decide (id_ ∈ ids) then
                  attachments_from parent ids anchors'
                else
                  let r := attachments_from parent ({[id_]} ∪ ids) anchors' in
                  mkDownload
                    (Attachment id_ (default text (a_title a)) parent
                       :: yielded r)
                    (raises r)
            end
      end
  end.

Definition get_attachments (parent : Downloadable) (anchors : list Anchor)
  : Download :=
  attachments_from parent ∅ anchors.
End Attachments.

End Scraping.

(** ** The sliding window of the reporter: [Downloader.update_rates] *)

Module Reporter.

Section Rates.
(** The readings of [time.perf_counter] and the rates computed from them
    are floating-point numbers: both are kept abstract, with the integer
    [0] a rate starts from as [zero].  [slope] is the quotient
    [(bytes_downloaded - old_size) / (now - then)], which is [None] when
    the division raises: it raises [ZeroDivisionError] when the two
    readings are equal, which is [slope_of_equal_readings] below. *)
Context {Time Rate : Type}.
Variable zero : Rate.
Variable slope : Z -> Z -> Time -> Time -> option Rate.

(** [collections.deque(maxlen=20)] *)
Definition maxlen : nat := 20.

(** [deque.append] on a bounded deque: once the deque is full, the item at
    the other end is discarded. *)
Definition deque_append {A} (x : A) (l : list A) : list A :=
  if Nat.ltb (length l) maxlen then l ++ [x] else drop 1 l ++ [x].

(** [Downloader.update_rates] at the time [now] with [bytes_downloaded]
    bytes received so far: the bandwidth it formats into [rates_str], and
    the deque [rates] afterwards; [None] when the division raises, which is
    before the append, so that the deque and [rates_str] stay as they
    were. *)
Definition update_rates (now : Time) (bytes_downloaded : Z)
           (rates : list (Time * Z)) : option (Rate * list (Time * Z)) :=
  bandwidth ←
    match rates with
    | [] => Some zero
    | (then_, old_size) :: _ => slope bytes_downloaded old_size now then_
    end;
  Some (bandwidth, deque_append (now, bytes_downloaded) rates).

(** The deque after one update for each sample, from the empty deque of a
    new [Downloader]; [None] when one of the updates raises, which ends
    the reporting task. *)
Definition rates_after (samples : list (Time * Z))
  : option (list (Time * Z)) :=
  foldl (fun acc s => rates ← acc; snd <$> update_rates s.1 s.2 rates)
        (Some []) samples.

(** Dividing by the difference of two equal readings raises. *)
Definition slope_of_equal_readings : Prop :=
  forall bytes_downloaded old_size now,
    slope bytes_downloaded old_size now now = None.
End Rates.

End Reporter.

(** ** Saved credentials: [Client.ensure_authenticated] *)

Module Credentials.

(** A Python [str], as the list of its code points. *)
Definition Text : Type := list N.

(** The code points of a literal of ASCII characters. *)
Definition text (s : string) : Text :=
  Ascii.N_of_ascii <$> String.list_ascii_of_string s.

(** [str.isspace] on one code point: the characters of Unicode that are
    white space for Python, which are the ASCII ones (tab to carriage
    return, the four separators, the space), the next line, the no-break
    spaces and the other space separators, and the line and paragraph
    separators. *)
Definition isspace (c : N) : bool :=
  (N.leb 9 c && N.leb c 13) || (N.leb 28 c && N.leb c 32)
  || N.eqb c 133 || N.eqb c 160 || N.eqb c 5760
  || (N.leb 8192 c && N.leb c 8202)
  || N.eqb c 8232 || N.eqb c 8233 || N.eqb c 8239 || N.eqb c 8287
  || N.eqb c 12288.

(** [str.lstrip()] and [str.strip()] *)
Fixpoint lstrip (l : Text) : Text :=
  match l with
  | [] => []
  | c :: l' => if isspace c then lstrip l' else l
  end.

Definition strip (s : Text) : Text := rev (lstrip (rev (lstrip s))).

(** The line feed and the carriage return. *)
Definition LF : N := 10.
Definition CR : N := 13.

(** Reading in text mode with the default [newline=None]: a carriage
    return, alone or followed by a line feed, is read as a line feed. *)
Fixpoint universal_newlines (t : Text) : Text :=
  match t with
  | [] => []
  | c :: t' =>
      if N.eqb c CR then
        LF :: match t' with
              | [] => []
              | c' :: t'' =>
                  if N.eqb c' LF then universal_newlines t''
                  else universal_newlines t'
              end
      else c :: universal_newlines t'
  end.

(** Writing in text mode with the default [newline=None]: every line feed
    is written as [os.linesep]. *)
Definition write_newlines (linesep : Text) (t : Text) : Text :=
  concat ((fun c => if N.eqb c LF then linesep else [c]) <$> t).

(** [os.linesep] is a line feed, or a carriage return and a line feed. *)
Definition is_linesep (linesep : Text) : Prop :=
  linesep = [LF] \/ linesep = [CR; LF].

(** Whether UTF-8 encodes the text: it does unless there is a surrogate in
    it, on which [write] raises [UnicodeEncodeError]. *)
Definition encodable (t : Text) : bool :=
  forallb (fun c => negb (N.leb 55296 c && N.leb c 57343)) t.

(** What [credentials.txt] holds: the text its bytes decode to as UTF-8,
    before any translation of line ends, or bytes that are no UTF-8, on
    which [read] raises [UnicodeDecodeError].  The path is taken to be a
    file that can be opened, or to be missing. *)
Inductive Content :=
| Decoded (t : Text)
| Undecodable.

(** The part of a [Client] that logging in touches: [credentials.txt]
    when the file exists, and the value of the cookie [PHPSESSID] that the
    cookie jar gives for the login page, when it has one. *)
Record Client := mkClient {
  cred_file : option Content;
  cookie : option Text;
}.

Inductive Exc :=
| LoginFailed
| KeyError
| UnicodeEncodeError
| UnicodeDecodeError.

Inductive Result :=
| Done (c : Client)
| Raised (e : Exc) (c : Client).

Section Login.
(** [os.linesep] *)
Variable linesep : Text.
(** The server.  Under a given [PHPSESSID], the name [get_login_state]
    finds on the home page ([None] when the page shows no login), with the
    [PHPSESSID] the cookie jar holds after that request, if any: the same,
    unless the server sets or drops it.  For a user name and a password,
    the [PHPSESSID] the jar holds after the two requests of
    [login_with_username_and_password], if any, with whether the answer has
    status ['true']. *)
Variable get_login_state : Text -> option Text * option Text.
Variable password_login : Text -> Text -> option Text * bool.

(** [Client.login_with_phpsessid] *)
Definition login_with_phpsessid (phpsessid : Text) (c : Client) : Result :=
  let '(name, session) := get_login_state phpsessid in
  let c' := mkClient (cred_file c) session in
  match name with
  | None => Raised LoginFailed c'
  | Some _ => Done c'
  end.

(** [Client.login_with_username_and_password] *)
Definition login_with_username_and_password (username password : Text)
           (c : Client) : Result :=
  let '(session, ok) := password_login username password in
  let c' := mkClient (cred_file c) session in
  if ok then Done c' else Raised LoginFailed c'.

(** [Client.interactive_login], on what the user types: a user name and a
    password, or an empty user name and a [PHPSESSID]. *)
Definition interactive_login (username secret : Text) (c : Client)
  : Result :=
  match username with
  | [] => login_with_phpsessid secret c
  | _ :: _ => login_with_username_and_password username secret c
  end.

(** [Client.ensure_authenticated].  With no file and a prompt, the file
    is opened for writing, which creates it, before the cookie is looked
    up and printed: when the jar has no [PHPSESSID] ([KeyError]), or the
    value does not encode, the file is left behind, empty.  With a file,
    its text is read, the line ends translated, and stripped. *)
Definition ensure_authenticated (prompt : bool) (username secret : Text)
           (c : Client) : Result :=
  match cred_file c with
  | None =>
      if prompt then
        match interactive_login username secret c with
        | Raised e c' => Raised e c'
        | Done c' =>
            let opened := mkClient (Some (Decoded [])) (cookie c') in
            match cookie c' with
            | None => Raised KeyError opened
            | Some value =>
                if encodable value then
                  Done (mkClient
                          (Some (Decoded
                                   (write_newlines linesep (value ++ [LF]))))
                          (cookie c'))
                else Raised UnicodeEncodeError opened
            end
        end
      else Done c
  | Some Undecodable => Raised UnicodeDecodeError c
  | Some (Decoded t) => login_with_phpsessid (strip (universal_newlines t)) c
  end.

End Login.

End Credentials.

(** * Properties of the transport *)

Section TransportFacts.
Import Transport.
Context {Response : Type}.
Implicit Types (srv : nat -> Attempt Response) (r : Response).

(** One unfolding of the loop on a transient failure with retries left. *)
Lemma request_loop_transient srv retries d k zs :
  srv k = Throws transient ->
  request_loop srv (S retries) d k zs
  = request_loop srv retries (d * 4) (S k) (zs ++ [d]).
Proof. intros H. simpl. rewrite H. reflexivity. Qed.

(** Whatever is left of the budget, a response ends the call. *)
Lemma request_loop_responds srv retries d k zs r :
  srv k = Responds r ->
  request_loop srv retries d k zs
  = {| result := Yielded r; slept := zs; attempts := S k |}.
Proof. intros H. destruct retries; simpl; rewrite H; reflexivity. Qed.

(** Whatever is left of the budget, an error other than the transient one
    ends the call. *)
Lemma request_loop_fatal srv retries d k zs e :
  srv k = Throws e -> e <> transient ->
  request_loop srv retries d k zs
  = {| result := Raised e; slept := zs; attempts := S k |}.
Proof.
  intros H Hne. destruct retries; simpl; rewrite H.
  - destruct e; reflexivity.
  - destruct e as [status|]; [|reflexivity].
    destruct (Z.eqb_spec status 400) as [->|]; [|reflexivity].
    contradiction Hne; reflexivity.
Qed.

(** With the budget used up, any error ends the call. *)
Lemma request_loop_exhausted srv d k zs e :
  srv k = Throws e ->
  request_loop srv 0 d k zs
  = {| result := Raised e; slept := zs; attempts := S k |}.
Proof. intros H. simpl. rewrite H. destruct e; reflexivity. Qed.
End TransportFacts.

(** C5: a call whose first two attempts fail with status 400 and whose third
    attempt responds returns that response, after sleeping 5 and then 20
    seconds and nothing else; and a call whose attempt fails with any other
    error (another status, or an exception that is not a response error)
    raises it at once, with no sleep and no second attempt; at whatever
    turn of the loop such an error comes, the call ends there, with no sleep
    and no attempt after it. *)
Theorem request_retry_then_success_and_fatal {Response : Type} :
  (forall (srv : nat -> Transport.Attempt Response) (r : Response),
      srv 0 = Transport.Throws Transport.transient ->
      srv 1 = Transport.Throws Transport.transient ->
      srv 2 = Transport.Responds r ->
      Transport.request srv
      = {| Transport.result := Transport.Yielded r;
           Transport.slept := [5; 20]%Z;
           Transport.attempts := 3 |})
  /\ (forall (srv : nat -> Transport.Attempt Response) (e : Transport.Exc),
        srv 0 = Transport.Throws e ->
        e <> Transport.transient ->
        Transport.request srv
        = {| Transport.result := Transport.Raised e;
             Transport.slept := [];
             Transport.attempts := 1 |})
  /\ (forall (srv : nat -> Transport.Attempt Response) (e : Transport.Exc)
             (retries : nat) (sleep_duration : Z) (k : nat) (zs : list Z),
        srv k = Transport.Throws e ->
        e <> Transport.transient ->
        Transport.request_loop srv retries sleep_duration k zs
        = {| Transport.result := Transport.Raised e;
             Transport.slept := zs;
             Transport.attempts := S k |}).
Proof.
  split; [|split].
  - intros srv r H0 H1 H2. unfold Transport.request.
    rewrite (request_loop_transient _ _ _ _ _ H0).
    rewrite (request_loop_transient _ _ _ _ _ H1).
    rewrite (request_loop_responds _ _ _ _ _ _ H2).
    reflexivity.
  - intros srv e H0 Hne. unfold Transport.request.
    apply request_loop_fatal; assumption.
  - intros srv e retries d k zs Hk Hne.
    apply request_loop_fatal; assumption.
Qed.

Lemma request_retry_then_success_and_fatal_witness :
  Transport.request (Transport.failing_then [400; 400]%Z "page")
  = {| Transport.result := Transport.Yielded "page";
       Transport.slept := [5; 20]%Z;
       Transport.attempts := 3 |}
  /\ Transport.request (Transport.failing_then [404]%Z "page")
     = {| Transport.result := Transport.Raised (Transport.ClientResponseError 404);
          Transport.slept := [];
          Transport.attempts := 1 |}.
Proof.
  split.
  - apply (proj1 request_retry_then_success_and_fatal); reflexivity.
  - apply (proj1 (proj2 request_retry_then_success_and_fatal));
      [reflexivity | discriminate].
Defined.

(** C4, as the code has it: after three consecutive failures with status 400
    the call sleeps a third time (5, 20 and 80 seconds) and makes one more
    attempt, the fourth and last.  That attempt decides: a response is
    returned, an error is raised, be it a fourth 400, and there is no fifth
    attempt and no fourth sleep. *)
Theorem request_budget_exhausted {Response : Type}
        (srv : nat -> Transport.Attempt Response) :
  srv 0 = Transport.Throws Transport.transient ->
  srv 1 = Transport.Throws Transport.transient ->
  srv 2 = Transport.Throws Transport.transient ->
  Transport.request srv
  = {| Transport.result :=
         match srv 3 with
         | Transport.Responds r => Transport.Yielded r
         | Transport.Throws e => Transport.Raised e
         end;
       Transport.slept := [5; 20; 80]%Z;
       Transport.attempts := 4 |}.
Proof.
  intros H0 H1 H2. unfold Transport.request.
  rewrite (request_loop_transient _ _ _ _ _ H0).
  rewrite (request_loop_transient _ _ _ _ _ H1).
  rewrite (request_loop_transient _ _ _ _ _ H2).
  destruct (srv 3) as [r|e] eqn:H3.
  - rewrite (request_loop_responds _ _ _ _ _ _ H3). reflexivity.
  - rewrite (request_loop_exhausted _ _ _ _ _ H3). reflexivity.
Qed.

Lemma request_budget_exhausted_witness :
  Transport.request (Transport.failing_then [400; 400; 400; 400]%Z "page")
  = {| Transport.result := Transport.Raised Transport.transient;
       Transport.slept := [5; 20; 80]%Z;
       Transport.attempts := 4 |}.
Proof.
  apply (request_budget_exhausted
           (Transport.failing_then [400; 400; 400; 400]%Z "page"));
    reflexivity.
Defined.

(** C4 as stated fails: a call that failed three times in a row with status
    400 need not raise.  When the server answers the fourth attempt the call
    returns that answer. *)
Lemma request_three_failures_need_not_raise :
  ~ (forall srv : nat -> Transport.Attempt string,
        srv 0 = Transport.Throws Transport.transient ->
        srv 1 = Transport.Throws Transport.transient ->
        srv 2 = Transport.Throws Transport.transient ->
        exists e,
          Transport.result (Transport.request srv) = Transport.Raised e
          /\ Transport.attempts (Transport.request srv) = 3).
Proof.
  intros H.
  destruct (H (Transport.failing_then [400; 400; 400]%Z "page"))
    as (e & He & _); try reflexivity.
  vm_compute in He. discriminate He.
Qed.

(** * Properties of the downloader *)

Section EngineFacts.
Import Engine.
Context {bytes : Type}.
Variable pickle_dumps : ResumeData -> bytes.
Variable sha256_hexdigest : bytes -> string.
Variable data_dir : string.
Variable download : Downloadable -> Download.
Variable meta_write_raises : Downloadable -> bool.
Variable interrupted_is_set : nat -> bool.

Local Abbreviation step :=
  (step pickle_dumps sha256_hexdigest data_dir
        download meta_write_raises interrupted_is_set).
Local Abbreviation run_loop :=
  (run_loop pickle_dumps sha256_hexdigest data_dir
            download meta_write_raises interrupted_is_set).
Local Abbreviation create_resume_file :=
  (create_resume_file pickle_dumps sha256_hexdigest data_dir).
Local Abbreviation resume_path := (resume_path sha256_hexdigest data_dir).
Local Abbreviation enter_download := (enter_download download).
Local Abbreviation write_meta := (write_meta download).
Local Abbreviation while_downloading := (while_downloading download).
Local Abbreviation history :=
  (history pickle_dumps sha256_hexdigest data_dir
           download meta_write_raises interrupted_is_set).
Local Abbreviation run_history :=
  (run_history pickle_dumps sha256_hexdigest data_dir
               download meta_write_raises interrupted_is_set).

Implicit Types (st : @State bytes) (item : Downloadable)
         (ignore : gset string).

(** *** Projections of the state updates *)

Lemma items_mark_all_total l st : items (mark_all_total l st) = items st.
Proof.
  revert st. induction l as [|c l IH]; intros st; [reflexivity|].
  simpl. rewrite IH. reflexivity.
Qed.

Lemma expanded_mark_all_total l st :
  expanded (mark_all_total l st) = expanded st.
Proof.
  revert st. induction l as [|c l IH]; intros st; [reflexivity|].
  simpl. rewrite IH. reflexivity.
Qed.

Lemma files_mark_all_total l st : files (mark_all_total l st) = files st.
Proof.
  revert st. induction l as [|c l IH]; intros st; [reflexivity|].
  simpl. rewrite IH. reflexivity.
Qed.

Lemma fullstats_mark_all_total l st :
  fullstats (mark_all_total l st) = fullstats st.
Proof.
  revert st. induction l as [|c l IH]; intros st; [reflexivity|].
  simpl. rewrite IH. reflexivity.
Qed.

(** *** The three ways a turn on a non-empty queue goes *)

Lemma step_ignored ignore st item rest :
  items st = item :: rest ->
  ignored ignore item = true ->
  step ignore st = Continue (with_items rest st).
Proof. intros Hq Hi. unfold Engine.step. rewrite Hq, Hi. reflexivity. Qed.

Lemma step_fault ignore st item rest :
  items st = item :: rest ->
  ignored ignore item = false ->
  raises (download item) || meta_write_raises item = true ->
  step ignore st
  = Stop (DownloadFailed
            (resume_path (pickle_dumps (mkResume (item :: rest) ignore)))
            item)
         (finish (create_resume_file (mkResume (item :: rest) ignore)
                                     (enter_download item st)).2).
Proof.
  intros Hq Hi Hr. unfold Engine.step. rewrite Hq, Hi, Hr.
  unfold Engine.enter_download at 1. simpl.
  rewrite items_mark_all_total, Hq. reflexivity.
Qed.

Lemma step_success ignore st item rest :
  items st = item :: rest ->
  ignored ignore item = false ->
  raises (download item) || meta_write_raises item = false ->
  let st4 := mark_completed item
               (with_items (rest ++ yielded (download item))
                           (write_meta item (enter_download item st))) in
  step ignore st
  = if interrupted_is_set (S (length (expanded st))) then
      Stop (Interrupted
              (resume_path
                 (pickle_dumps
                    (mkResume (rest ++ yielded (download item)) ignore)))
              item)
           (finish (create_resume_file
                      (mkResume (rest ++ yielded (download item)) ignore)
                      st4).2)
    else Continue st4.
Proof.
  intros Hq Hi Hr. unfold Engine.step. rewrite Hq, Hi, Hr. simpl.
  rewrite expanded_mark_all_total, length_app. simpl.
  replace (length (expanded st) + 1) with (S (length (expanded st))) by lia.
  reflexivity.
Qed.
(** *** Checkpoints written when a run stops *)

(** C2: when the expansion of the head item [X] of the queue [X :: rest]
    raises (or the write of its [meta.json] does), [run] writes a resume file
    whose pending list is exactly [X :: rest], with [X] still first and none
    of the children it had yielded, and ends with [DownloadFailed] carrying
    the path of that file. *)
Theorem fault_checkpoint_keeps_head ignore st X rest fuel :
  items st = X :: rest ->
  ignored ignore X = false ->
  raises (download X) || meta_write_raises X = true ->
  let b := pickle_dumps (mkResume (X :: rest) ignore) in
  exists st',
    run_loop fuel ignore st = Some (DownloadFailed (resume_path b) X, st')
    /\ files st' !! resume_path b = Some b
    /\ items st' = X :: rest
    /\ done st' = true.
Proof.
  intros Hq Hi Hr b.
  pose proof (step_fault ignore st X rest Hq Hi Hr) as Hs.
  eexists. split.
  - destruct fuel; simpl; rewrite Hs; reflexivity.
  - simpl. repeat split.
    + apply lookup_insert_eq.
    + rewrite items_mark_all_total. exact Hq.
Qed.

(** C3: when [X], at the head of [X :: rest], completes and the interrupt
    flag is found set at the poll that follows, [run] writes a resume file
    whose pending list is [rest] followed by the children of [X] in the
    order they were yielded, without [X] in front, and returns through the
    interrupt branch: no other item is expanded. *)
Theorem interrupt_checkpoint_excludes_completed ignore st X rest fuel :
  items st = X :: rest ->
  ignored ignore X = false ->
  raises (download X) || meta_write_raises X = false ->
  interrupted_is_set (S (length (expanded st))) = true ->
  let pending := rest ++ yielded (download X) in
  let b := pickle_dumps (mkResume pending ignore) in
  exists st',
    run_loop fuel ignore st = Some (Interrupted (resume_path b) X, st')
    /\ files st' !! resume_path b = Some b
    /\ items st' = pending
    /\ expanded st' = expanded st ++ [X]
    /\ done st' = true.
Proof.
  intros Hq Hi Hr Hint pending b.
  pose proof (step_success ignore st X rest Hq Hi Hr) as Hs.
  simpl in Hs. rewrite Hint in Hs.
  eexists. split.
  - destruct fuel; simpl; rewrite Hs; reflexivity.
  - simpl. repeat split.
    + apply lookup_insert_eq.
    + rewrite expanded_mark_all_total. reflexivity.
Qed.

(** C10: when the item that just completed was the last one and had no
    children, so that the queue is empty, and the interrupt flag is set, [run]
    still leaves through the interrupt branch: it writes a resume file whose
    pending list is empty and does not end as [Completed]. *)
Theorem interrupt_on_last_item_still_interrupts ignore st X fuel :
  items st = [X] ->
  yielded (download X) = [] ->
  ignored ignore X = false ->
  raises (download X) || meta_write_raises X = false ->
  interrupted_is_set (S (length (expanded st))) = true ->
  let b := pickle_dumps (mkResume [] ignore) in
  exists st',
    run_loop fuel ignore st = Some (Interrupted (resume_path b) X, st')
    /\ files st' !! resume_path b = Some b
    /\ items st' = []
    /\ (forall st'', run_loop fuel ignore st <> Some (Completed, st'')).
Proof.
  intros Hq Hc Hi Hr Hint b.
  pose proof (step_success ignore st X [] Hq Hi Hr) as Hs.
  simpl in Hs. rewrite Hint, Hc in Hs. simpl in Hs.
  eexists. split; [|split; [|split]].
  - destruct fuel; simpl; rewrite Hs; reflexivity.
  - simpl. apply lookup_insert_eq.
  - reflexivity.
  - intros st''. destruct fuel; simpl; rewrite Hs; discriminate.
Qed.


(** *** Inverting a turn *)

Lemma step_Continue_inv ignore st st' :
  step ignore st = Continue st' ->
  exists item rest,
    items st = item :: rest
    /\ ((ignored ignore item = true /\ st' = with_items rest st)
        \/ (ignored ignore item = false
            /\ raises (download item) || meta_write_raises item = false
            /\ interrupted_is_set (S (length (expanded st))) = false
            /\ st' = mark_completed item
                       (with_items (rest ++ yielded (download item))
                          (write_meta item (enter_download item st))))).
Proof.
  intros Hs. destruct (items st) as [|item rest] eqn:Hq.
  { unfold Engine.step in Hs. rewrite Hq in Hs. discriminate. }
  exists item, rest. split; [reflexivity|].
  destruct (ignored ignore item) eqn:Hi.
  - left. rewrite (step_ignored _ _ _ _ Hq Hi) in Hs.
    split; congruence.
  - right.
    destruct (raises (download item) || meta_write_raises item) eqn:Hr.
    { rewrite (step_fault _ _ _ _ Hq Hi Hr) in Hs. discriminate. }
    rewrite (step_success _ _ _ _ Hq Hi Hr) in Hs.
    destruct (interrupted_is_set (S (length (expanded st)))); [discriminate|].
    repeat split; congruence.
Qed.

Lemma step_Stop_inv ignore st o st' :
  step ignore st = Stop o st' ->
  (items st = [] /\ o = Completed /\ st' = finish st)
  \/ exists item rest,
      items st = item :: rest /\ ignored ignore item = false
      /\ ((o = DownloadFailed
                 (resume_path (pickle_dumps (mkResume (item :: rest) ignore)))
                 item
           /\ st' = finish (create_resume_file
                              (mkResume (item :: rest) ignore)
                              (enter_download item st)).2)
          \/ (raises (download item) || meta_write_raises item = false
              /\ o = Interrupted
                       (resume_path
                          (pickle_dumps
                             (mkResume (rest ++ yielded (download item))
                                       ignore)))
                       item
              /\ st' = finish (create_resume_file
                                 (mkResume (rest ++ yielded (download item))
                                           ignore)
                                 (mark_completed item
                                    (with_items
                                       (rest ++ yielded (download item))
                                       (write_meta item
                                          (enter_download item st))))).2)).
Proof.
  intros Hs. destruct (items st) as [|item rest] eqn:Hq.
  { left. unfold Engine.step in Hs. rewrite Hq in Hs.
    repeat split; congruence. }
  right. exists item, rest. split; [reflexivity|].
  destruct (ignored ignore item) eqn:Hi.
  { rewrite (step_ignored _ _ _ _ Hq Hi) in Hs. discriminate. }
  split; [reflexivity|].
  destruct (raises (download item) || meta_write_raises item) eqn:Hr.
  - left. rewrite (step_fault _ _ _ _ Hq Hi Hr) in Hs.
    split; congruence.
  - right. rewrite (step_success _ _ _ _ Hq Hi Hr) in Hs.
    destruct (interrupted_is_set (S (length (expanded st)))); [|discriminate].
    repeat split; congruence.
Qed.

(** *** The counters *)

Lemma stat_of_insert (s : gmap string Stat) k v k' :
  stat_of (<[k := v]> s) k' = if decide (k = k') then v else stat_of s k'.
Proof. unfold stat_of. rewrite lookup_insert. case_decide; reflexivity. Qed.

Lemma pending_of_cons item l k :
  pending_of k (item :: l)
  = (if decide (STATS_NAME item = k) then 1 else 0) + pending_of k l.
Proof.
  unfold pending_of. rewrite filter_cons.
  case_decide; reflexivity.
Qed.

Lemma pending_of_app l1 l2 k :
  pending_of k (l1 ++ l2) = pending_of k l1 + pending_of k l2.
Proof. unfold pending_of. rewrite filter_app, length_app. reflexivity. Qed.

Lemma pending_of_take_le n l k : pending_of k (take n l) <= pending_of k l.
Proof.
  rewrite <- (take_drop n l) at 2. rewrite pending_of_app. lia.
Qed.

Lemma total_of_mark_total item st k :
  total_of (mark_total item st) k
  = total_of st k + (if decide (STATS_NAME item = k) then 1 else 0).
Proof.
  unfold total_of, mark_total. simpl. rewrite stat_of_insert.
  case_decide; [subst k; simpl|]; lia.
Qed.

Lemma completed_of_mark_total item st k :
  completed_of (mark_total item st) k = completed_of st k.
Proof.
  unfold completed_of, mark_total. simpl. rewrite stat_of_insert.
  case_decide; [subst k|]; reflexivity.
Qed.

Lemma total_of_mark_all_total l st k :
  total_of (mark_all_total l st) k = total_of st k + pending_of k l.
Proof.
  revert st. induction l as [|c l IH]; intros st.
  - unfold pending_of. simpl. lia.
  - simpl. rewrite IH, total_of_mark_total, pending_of_cons. lia.
Qed.

Lemma completed_of_mark_all_total l st k :
  completed_of (mark_all_total l st) k = completed_of st k.
Proof.
  revert st. induction l as [|c l IH]; intros st; [reflexivity|].
  simpl. rewrite IH. apply completed_of_mark_total.
Qed.

Lemma total_of_mark_completed item st k :
  total_of (mark_completed item st) k = total_of st k.
Proof.
  unfold total_of, mark_completed. simpl. rewrite stat_of_insert.
  case_decide; [subst k|]; reflexivity.
Qed.

Lemma completed_of_mark_completed item st k :
  completed_of (mark_completed item st) k
  = completed_of st k + (if decide (STATS_NAME item = k) then 1 else 0).
Proof.
  unfold completed_of, mark_completed. simpl. rewrite stat_of_insert.
  case_decide; [subst k; simpl|]; lia.
Qed.

(** The counters after a completed turn, in terms of those before it. *)
Lemma counters_after_completion item rest st k :
  let st' := mark_completed item
               (with_items (rest ++ yielded (download item))
                  (write_meta item (enter_download item st))) in
  total_of st' k = total_of st k + pending_of k (yielded (download item))
  /\ completed_of st' k
     = completed_of st k + (if decide (STATS_NAME item = k) then 1 else 0).
Proof.
  intros st'. subst st'.
  rewrite total_of_mark_completed, completed_of_mark_completed.
  change (total_of (with_items _ (write_meta item (enter_download item st))) k)
    with (total_of (mark_all_total (yielded (download item)) st) k).
  change (completed_of
            (with_items _ (write_meta item (enter_download item st))) k)
    with (completed_of (mark_all_total (yielded (download item)) st) k).
  rewrite total_of_mark_all_total, completed_of_mark_all_total.
  split; reflexivity.
Qed.

(** The counters when a turn stops on a fault. *)
Lemma counters_after_fault data item st k :
  let st' := finish (create_resume_file data (enter_download item st)).2 in
  total_of st' k = total_of st k + pending_of k (yielded (download item))
  /\ completed_of st' k = completed_of st k.
Proof.
  intros st'. subst st'.
  change (total_of (finish _) k)
    with (total_of (mark_all_total (yielded (download item)) st) k).
  change (completed_of (finish _) k)
    with (completed_of (mark_all_total (yielded (download item)) st) k).
  rewrite total_of_mark_all_total, completed_of_mark_all_total.
  split; reflexivity.
Qed.

(** *** [counted] is an invariant of the loop *)

Lemma counted_start (fs : gmap string bytes) seeds :
  counted (mark_all_total seeds (init fs seeds)).
Proof.
  intros k. rewrite completed_of_mark_all_total, total_of_mark_all_total.
  rewrite items_mark_all_total. simpl.
  unfold completed_of, total_of, stat_of. simpl.
  rewrite lookup_empty. simpl. lia.
Qed.

Lemma counted_step ignore st st' :
  counted st -> step ignore st = Continue st' -> counted st'.
Proof.
  intros Hc Hs k. specialize (Hc k).
  destruct (step_Continue_inv _ _ _ Hs)
    as (item & rest & Hq & [[_ ->]|(_ & _ & _ & ->)]).
  - rewrite Hq, pending_of_cons in Hc.
    change (completed_of st k + pending_of k rest <= total_of st k). lia.
  - destruct (counters_after_completion item rest st k) as [-> ->].
    rewrite Hq, pending_of_cons in Hc.
    change (items (mark_completed item _))
      with (rest ++ yielded (download item)).
    rewrite pending_of_app. lia.
Qed.

Lemma reachable_counted fs seeds ignore st :
  reachable pickle_dumps sha256_hexdigest data_dir download
            meta_write_raises interrupted_is_set fs seeds ignore st ->
  counted st.
Proof.
  induction 1 as [|st st' _ IH Hs].
  - apply counted_start.
  - exact (counted_step _ _ _ IH Hs).
Qed.

Lemma within_turn_counters ignore st st' k :
  counted st ->
  within_turn pickle_dumps sha256_hexdigest data_dir download
              meta_write_raises interrupted_is_set ignore st st' ->
  total_of st k <= total_of st' k
  /\ completed_of st k <= completed_of st' k
  /\ completed_of st' k <= total_of st' k.
Proof.
  intros Hc Hw. specialize (Hc k).
  destruct Hw as [item rest n Hq Hi|st' Hs|o st' Hs].
  - rewrite total_of_mark_all_total, completed_of_mark_all_total. lia.
  - destruct (step_Continue_inv _ _ _ Hs)
      as (item & rest & Hq & [[_ ->]|(_ & _ & _ & ->)]).
    + change (total_of (with_items rest st) k) with (total_of st k).
      change (completed_of (with_items rest st) k) with (completed_of st k).
      lia.
    + destruct (counters_after_completion item rest st k) as [-> ->].
      rewrite Hq, pending_of_cons in Hc. lia.
  - destruct (step_Stop_inv _ _ _ _ Hs)
      as [(_ & _ & ->)|(item & rest & Hq & _ & [[_ ->]|(_ & _ & ->)])].
    + change (total_of (finish st) k) with (total_of st k).
      change (completed_of (finish st) k) with (completed_of st k).
      lia.
    + destruct (counters_after_fault (mkResume (item :: rest) ignore)
                                     item st k) as [-> ->].
      lia.
    + pose proof (counters_after_completion item rest st k) as [Ht Hd].
      simpl in Ht, Hd.
      change (total_of (finish _) k)
        with (total_of (mark_completed item
                (with_items (rest ++ yielded (download item))
                   (write_meta item (enter_download item st)))) k).
      change (completed_of (finish _) k)
        with (completed_of (mark_completed item
                (with_items (rest ++ yielded (download item))
                   (write_meta item (enter_download item st)))) k).
      rewrite Ht, Hd. rewrite Hq, pending_of_cons in Hc. lia.
Qed.

Lemma counters_while_seeding (fs : gmap string bytes) seeds n k :
  total_of (mark_all_total (take n seeds) (init fs seeds)) k
  = pending_of k (take n seeds)
  /\ completed_of (mark_all_total (take n seeds) (init fs seeds)) k = 0.
Proof.
  rewrite total_of_mark_all_total, completed_of_mark_all_total.
  unfold total_of, completed_of, stat_of. simpl.
  rewrite lookup_empty. split; reflexivity.
Qed.

(** *** The counters along the states of a run *)

Lemma stats_le_refl st : stats_le st st.
Proof. intros k. split; reflexivity. Qed.

Lemma stats_le_trans (a b c : @State bytes) :
  stats_le a b -> stats_le b c -> stats_le a c.
Proof.
  intros Hab Hbc k. destruct (Hab k), (Hbc k). split; lia.
Qed.

Lemma never_decreasing_nil : never_decreasing (@nil (@State bytes)).
Proof. intros i j a b _ Hi. rewrite lookup_nil in Hi. discriminate. Qed.

Lemma never_decreasing_cons (a : @State bytes) l :
  (forall b, b ∈ l -> stats_le a b) ->
  never_decreasing l -> never_decreasing (a :: l).
Proof.
  intros Ha Hl i j x y Hij Hi Hj. destruct i as [|i], j as [|j]; simpl in *.
  - injection Hi as <-. injection Hj as <-. apply stats_le_refl.
  - injection Hi as <-. apply Ha. exact (list_elem_of_lookup_2 _ _ _ Hj).
  - lia.
  - apply (Hl i j); [lia|assumption|assumption].
Qed.

Lemma never_decreasing_app (l1 l2 : list (@State bytes)) :
  never_decreasing l1 -> never_decreasing l2 ->
  (forall a b, a ∈ l1 -> b ∈ l2 -> stats_le a b) ->
  never_decreasing (l1 ++ l2).
Proof.
  intros H1 H2 H12 i j x y Hij Hi Hj.
  destruct (decide (j < length l1)) as [Hj1|Hj1].
  - rewrite lookup_app_l in Hi by lia. rewrite lookup_app_l in Hj by lia.
    exact (H1 i j x y Hij Hi Hj).
  - rewrite lookup_app_r in Hj by lia.
    destruct (decide (i < length l1)) as [Hi1|Hi1].
    + rewrite lookup_app_l in Hi by lia.
      apply H12; [exact (list_elem_of_lookup_2 _ _ _ Hi)
                 |exact (list_elem_of_lookup_2 _ _ _ Hj)].
    + rewrite lookup_app_r in Hi by lia.
      apply (H2 (i - length l1) (j - length l1)); [lia|assumption|assumption].
Qed.

Lemma stats_le_take l st n m :
  n <= m ->
  stats_le (mark_all_total (take n l) st) (mark_all_total (take m l) st).
Proof.
  intros Hnm k.
  rewrite !total_of_mark_all_total, !completed_of_mark_all_total.
  split; [|lia]. apply Nat.add_le_mono_l.
  replace (take n l) with (take n (take m l)).
  - apply pending_of_take_le.
  - rewrite take_take. f_equal. lia.
Qed.

Lemma prefixes_never_decreasing l st s len :
  never_decreasing
    ((fun n => mark_all_total (take n l) st) <$> seq s len).
Proof.
  intros i j a b Hij Hi Hj. rewrite list_lookup_fmap in Hi, Hj.
  destruct (seq s len !! i) as [n|] eqn:Ei; [|discriminate].
  destruct (seq s len !! j) as [m|] eqn:Ej; [|discriminate].
  injection Hi as <-. injection Hj as <-.
  apply lookup_seq in Ei as [-> _]. apply lookup_seq in Ej as [-> _].
  apply stats_le_take. lia.
Qed.

Lemma elem_of_while_downloading ignore st x :
  x ∈ while_downloading ignore st ->
  exists item rest n,
    items st = item :: rest /\ ignored ignore item = false
    /\ x = mark_all_total (take n (yielded (download item))) st.
Proof.
  unfold while_downloading. destruct (items st) as [|item rest] eqn:Hq.
  { intros H. apply elem_of_nil in H. contradiction. }
  destruct (ignored ignore item) eqn:Hi.
  { intros H. apply elem_of_nil in H. contradiction. }
  intros H. apply list_elem_of_fmap in H as (n & -> & _).
  exists item, rest, n. split; [reflexivity|]. split; [exact Hi|reflexivity].
Qed.

Lemma while_downloading_never_decreasing ignore st :
  never_decreasing (while_downloading ignore st).
Proof.
  unfold while_downloading. destruct (items st) as [|item rest].
  { apply never_decreasing_nil. }
  destruct (ignored ignore item); [apply never_decreasing_nil|].
  apply prefixes_never_decreasing.
Qed.

Lemma history_unfold fuel ignore st :
  history fuel ignore st
  = st :: while_downloading ignore st
       ++ match step ignore st with
          | Stop _ st' => [st']
          | Continue st' =>
              match fuel with
              | O => []
              | S fuel' => history fuel' ignore st'
              end
          end.
Proof. destruct fuel; reflexivity. Qed.

(** The state a turn ends in has counted every child yielded. *)
Lemma turn_end_counters ignore st item rest st' k :
  items st = item :: rest -> ignored ignore item = false ->
  (step ignore st = Continue st' \/ exists o, step ignore st = Stop o st') ->
  total_of st' k = total_of st k + pending_of k (yielded (download item))
  /\ completed_of st k <= completed_of st' k.
Proof.
  intros Hq Hi [Hs|[o Hs]].
  - destruct (step_Continue_inv _ _ _ Hs)
      as (item' & rest' & Hq' & [[Hi' _]|(_ & _ & _ & ->)]);
      rewrite Hq in Hq'; injection Hq' as <- <-.
    + congruence.
    + destruct (counters_after_completion item rest st k) as [-> ->].
      split; lia.
  - destruct (step_Stop_inv _ _ _ _ Hs)
      as [(Hq' & _)|(item' & rest' & Hq' & _ & [[_ ->]|(_ & _ & ->)])].
    + congruence.
    + rewrite Hq in Hq'. injection Hq' as <- <-.
      destruct (counters_after_fault (mkResume (item :: rest) ignore)
                                     item st k) as [-> ->].
      split; lia.
    + rewrite Hq in Hq'. injection Hq' as <- <-.
      pose proof (counters_after_completion item rest st k) as [Ht Hd].
      simpl in Ht, Hd.
      change (total_of (finish _) k)
        with (total_of (mark_completed item
                (with_items (rest ++ yielded (download item))
                   (write_meta item (enter_download item st)))) k).
      change (completed_of (finish _) k)
        with (completed_of (mark_completed item
                (with_items (rest ++ yielded (download item))
                   (write_meta item (enter_download item st)))) k).
      rewrite Ht, Hd. split; lia.
Qed.

Lemma within_turn_stats_le ignore st st' :
  counted st ->
  within_turn pickle_dumps sha256_hexdigest data_dir download
              meta_write_raises interrupted_is_set ignore st st' ->
  stats_le st st' /\ forall k, completed_of st' k <= total_of st' k.
Proof.
  intros Hc Hw. split; intros k;
    destruct (within_turn_counters ignore st st' k Hc Hw) as (? & ? & ?);
    [split|]; assumption.
Qed.

Lemma turn_above_head ignore st tail x :
  counted st ->
  (forall b, b ∈ tail ->
     stats_le st b /\ forall k, completed_of b k <= total_of b k) ->
  x ∈ st :: while_downloading ignore st ++ tail ->
  stats_le st x /\ forall k, completed_of x k <= total_of x k.
Proof.
  intros Hc Ht Hx. apply elem_of_cons in Hx as [->|Hx].
  { split; [apply stats_le_refl|]. intros k. specialize (Hc k). lia. }
  apply elem_of_app in Hx as [Hx|Hx]; [|exact (Ht x Hx)].
  apply elem_of_while_downloading in Hx as (item & rest & n & Hq & Hi & ->).
  apply (within_turn_stats_le ignore); [exact Hc|].
  exact (turn_child _ _ _ _ _ _ _ _ item rest n Hq Hi).
Qed.

(** Every state of the loop is at or above the loop head it starts from. *)
Lemma history_above_head fuel ignore st x :
  counted st -> x ∈ history fuel ignore st ->
  stats_le st x /\ forall k, completed_of x k <= total_of x k.
Proof.
  revert st x. induction fuel as [|fuel IH]; intros st x Hc Hx;
    rewrite history_unfold in Hx;
    apply (turn_above_head _ _ _ _ Hc) in Hx; try exact Hx;
    intros b Hb; destruct (step ignore st) as [st'|o st'] eqn:Hs.
  - apply elem_of_nil in Hb. contradiction.
  - apply list_elem_of_singleton in Hb as ->.
    apply (within_turn_stats_le ignore); [exact Hc|].
    exact (turn_stop _ _ _ _ _ _ _ _ o _ Hs).
  - destruct (IH st' b (counted_step _ _ _ Hc Hs) Hb) as [Hle Hbd].
    split; [|exact Hbd].
    apply (stats_le_trans _ st'); [|exact Hle].
    apply (within_turn_stats_le ignore); [exact Hc|].
    exact (turn_next _ _ _ _ _ _ _ _ _ Hs).
  - apply list_elem_of_singleton in Hb as ->.
    apply (within_turn_stats_le ignore); [exact Hc|].
    exact (turn_stop _ _ _ _ _ _ _ _ o _ Hs).
Qed.

Lemma history_turn_never_decreasing ignore st tail :
  counted st ->
  never_decreasing tail ->
  (forall b, b ∈ tail ->
     exists st', (step ignore st = Continue st'
                  \/ exists o, step ignore st = Stop o st')
                 /\ stats_le st' b) ->
  (forall b, b ∈ tail -> stats_le st b) ->
  never_decreasing (st :: while_downloading ignore st ++ tail).
Proof.
  intros Hc Ht Hend Hhead. apply never_decreasing_cons.
  - intros b Hb. apply elem_of_app in Hb as [Hb|Hb]; [|exact (Hhead b Hb)].
    apply elem_of_while_downloading in Hb as (item & rest & n & Hq & Hi & ->).
    apply (within_turn_stats_le ignore); [exact Hc|].
    exact (turn_child _ _ _ _ _ _ _ _ item rest n Hq Hi).
  - apply never_decreasing_app;
      [apply while_downloading_never_decreasing|exact Ht|].
    intros a b Ha Hb.
    apply elem_of_while_downloading in Ha as (item & rest & n & Hq & Hi & ->).
    destruct (Hend b Hb) as (st' & Hs & Hle).
    apply (stats_le_trans _ st'); [|exact Hle].
    intros k. destruct (turn_end_counters _ _ _ _ _ k Hq Hi Hs) as [-> Hd].
    rewrite total_of_mark_all_total, completed_of_mark_all_total.
    split; [|exact Hd].
    apply Nat.add_le_mono_l, pending_of_take_le.
Qed.

Lemma history_never_decreasing fuel ignore st :
  counted st -> never_decreasing (history fuel ignore st).
Proof.
  revert st. induction fuel as [|fuel IH]; intros st Hc;
    rewrite history_unfold;
    (apply history_turn_never_decreasing; [exact Hc|..]);
    destruct (step ignore st) as [st'|o st'] eqn:Hs;
    try apply never_decreasing_nil;
    try (intros b Hb; apply elem_of_nil in Hb; contradiction);
    try (apply never_decreasing_cons;
         [intros b Hb; apply elem_of_nil in Hb; contradiction
         |apply never_decreasing_nil]);
    try (intros b Hb; apply list_elem_of_singleton in Hb as ->;
         first [ exists st'; split;
                 [right; exists o; reflexivity|apply stats_le_refl]
               | apply (within_turn_stats_le ignore); [exact Hc|];
                 exact (turn_stop _ _ _ _ _ _ _ _ o _ Hs) ]).
  - exact (IH st' (counted_step _ _ _ Hc Hs)).
  - intros b Hb. exists st'. split; [left; reflexivity|].
    exact (proj1 (history_above_head _ _ _ _ (counted_step _ _ _ Hc Hs) Hb)).
  - intros b Hb.
    apply (stats_le_trans _ st').
    + apply (within_turn_stats_le ignore); [exact Hc|].
      exact (turn_next _ _ _ _ _ _ _ _ _ Hs).
    + exact (proj1 (history_above_head _ _ _ _
                      (counted_step _ _ _ Hc Hs) Hb)).
Qed.

Lemma run_history_never_decreasing fuel fs seeds ignore :
  never_decreasing (run_history fuel fs seeds ignore).
Proof.
  apply never_decreasing_app.
  - apply prefixes_never_decreasing.
  - apply history_never_decreasing, counted_start.
  - intros a b Ha Hb. apply list_elem_of_fmap in Ha as (n & -> & _).
    apply (stats_le_trans _ (mark_all_total seeds (init fs seeds))).
    + pose proof (stats_le_take seeds (init fs seeds) n (n + length seeds))
        as Hle.
      rewrite (take_ge seeds (n + length seeds)) in Hle by lia.
      apply Hle. lia.
    + exact (proj1 (history_above_head _ _ _ _ (counted_start fs seeds) Hb)).
Qed.

Lemma run_history_bounded fuel fs seeds ignore st k :
  st ∈ run_history fuel fs seeds ignore ->
  completed_of st k <= total_of st k.
Proof.
  intros H. apply elem_of_app in H as [H|H].
  - apply list_elem_of_fmap in H as (n & -> & _).
    destruct (counters_while_seeding fs seeds n k) as [-> ->]. lia.
  - exact (proj2 (history_above_head _ _ _ _ (counted_start fs seeds) H) k).
Qed.

(** The history goes through every state of the run. *)
Lemma history_S_subseteq fuel ignore st st' x :
  step ignore st = Continue st' ->
  x ∈ history fuel ignore st' -> x ∈ history (S fuel) ignore st.
Proof.
  intros Hs Hx. rewrite history_unfold, Hs.
  apply elem_of_cons. right. apply elem_of_app. right. exact Hx.
Qed.

Lemma reachable_history fs seeds ignore st :
  reachable pickle_dumps sha256_hexdigest data_dir download
            meta_write_raises interrupted_is_set fs seeds ignore st ->
  exists n, forall fuel x,
      x ∈ history fuel ignore st ->
      x ∈ history (n + fuel) ignore (mark_all_total seeds (init fs seeds)).
Proof.
  induction 1 as [|st st' _ [n IH] Hs].
  - exists 0. intros fuel x Hx. exact Hx.
  - exists (S n). intros fuel x Hx.
    replace (S n + fuel) with (n + S fuel) by lia.
    apply IH. exact (history_S_subseteq _ _ _ _ _ Hs Hx).
Qed.

Lemma history_head fuel ignore st : st ∈ history fuel ignore st.
Proof. rewrite history_unfold. apply elem_of_cons. left. reflexivity. Qed.

Lemma take_in_prefixes l st n :
  0 < n -> 0 < length l ->
  mark_all_total (take n l) st
  ∈ (fun n => mark_all_total (take n l) st) <$> seq 1 (length l).
Proof.
  intros Hn Hl. apply list_elem_of_fmap.
  exists (Nat.min n (length l)). split.
  - f_equal. destruct (decide (n <= length l)) as [Hle|Hle].
    + rewrite Nat.min_l by lia. reflexivity.
    + rewrite Nat.min_r by lia. rewrite !take_ge by lia. reflexivity.
  - apply elem_of_seq. lia.
Qed.

Lemma within_turn_history ignore st st' :
  within_turn pickle_dumps sha256_hexdigest data_dir download
              meta_write_raises interrupted_is_set ignore st st' ->
  st' ∈ history 1 ignore st.
Proof.
  intros [item rest n Hq Hi|st1 Hs|o st1 Hs]; rewrite history_unfold.
  - destruct (decide (0 < n /\ 0 < length (yielded (download item))))
      as [[Hn Hl]|Hz].
    + apply elem_of_cons. right. apply elem_of_app. left.
      unfold while_downloading. rewrite Hq, Hi.
      apply take_in_prefixes; assumption.
    + apply elem_of_cons. left.
      destruct n as [|n]; [reflexivity|].
      destruct (yielded (download item)) as [|c l]; [reflexivity|].
      simpl in Hz. lia.
  - rewrite Hs. apply elem_of_cons. right. apply elem_of_app. right.
    apply history_head.
  - rewrite Hs. apply elem_of_cons. right. apply elem_of_app. right.
    apply list_elem_of_singleton. reflexivity.
Qed.

Lemma observable_run_history fs seeds ignore st :
  observable pickle_dumps sha256_hexdigest data_dir download
             meta_write_raises interrupted_is_set fs seeds ignore st ->
  exists fuel, st ∈ run_history fuel fs seeds ignore.
Proof.
  intros [n|st1 Hr|st1 st2 Hr Hw].
  - exists 0. apply elem_of_app.
    destruct (decide (n < length seeds)) as [Hn|Hn].
    + left. apply list_elem_of_fmap. exists n. split; [reflexivity|].
      apply elem_of_seq. lia.
    + right. rewrite take_ge by lia. apply history_head.
  - destruct (reachable_history _ _ _ _ Hr) as [n Hn].
    exists (n + 0). apply elem_of_app. right. apply Hn, history_head.
  - destruct (reachable_history _ _ _ _ Hr) as [n Hn].
    exists (n + 1). apply elem_of_app. right.
    apply Hn, within_turn_history, Hw.
Qed.

(** A run that returns ends in the last state of its history. *)
Lemma history_last fuel ignore st o st' :
  run_loop fuel ignore st = Some (o, st') ->
  last (history fuel ignore st) = Some st'.
Proof.
  revert st. induction fuel as [|fuel IH]; intros st Hr;
    rewrite history_unfold; simpl in Hr;
    destruct (step ignore st) as [st1|o1 st1] eqn:Hs;
    try discriminate;
    try (injection Hr as <- <-;
         rewrite app_comm_cons, last_snoc; reflexivity).
  specialize (IH st1 Hr).
  rewrite app_comm_cons, last_app, IH. reflexivity.
Qed.

(** C9: in every state of a run (while the seeds are counted, at each loop
    head, while the children of an item arrive, and when a turn ends) the
    [completed] counter of every statistics name is at most its [total]
    counter; and neither counter ever goes down, from one seed to the next
    and from a loop head to every state of its turn, the next loop head
    included.  For the whole lifetime of the run: of any two states of its
    history, taken in the order of time, the later has no counter below the
    earlier, whether they are of the same turn, of two turns, or one of
    them of the counting of the seeds, and also when the turn stops on a
    fault or an interrupt; every state of the run occurs in its history,
    and a run that returns ends in the last state of it. *)
Theorem stats_completed_le_total fs seeds ignore :
  (forall st k,
      observable pickle_dumps sha256_hexdigest data_dir download
                 meta_write_raises interrupted_is_set fs seeds ignore st ->
      completed_of st k <= total_of st k)
  /\ (forall st st' k,
         reachable pickle_dumps sha256_hexdigest data_dir download
                   meta_write_raises interrupted_is_set fs seeds ignore st ->
         within_turn pickle_dumps sha256_hexdigest data_dir download
                     meta_write_raises interrupted_is_set ignore st st' ->
         total_of st k <= total_of st' k
         /\ completed_of st k <= completed_of st' k)
  /\ (forall n m k,
         n <= m ->
         let at_seed i := mark_all_total (take i seeds) (init fs seeds) in
         total_of (at_seed n) k <= total_of (at_seed m) k
         /\ completed_of (at_seed n) k <= completed_of (at_seed m) k)
  /\ (forall fuel i j a b k,
         i <= j ->
         Engine.run_history pickle_dumps sha256_hexdigest data_dir download
                            meta_write_raises interrupted_is_set
                            fuel fs seeds ignore !! i = Some a ->
         Engine.run_history pickle_dumps sha256_hexdigest data_dir download
                            meta_write_raises interrupted_is_set
                            fuel fs seeds ignore !! j = Some b ->
         total_of a k <= total_of b k
         /\ completed_of a k <= completed_of b k
         /\ completed_of b k <= total_of b k)
  /\ (forall st,
         observable pickle_dumps sha256_hexdigest data_dir download
                    meta_write_raises interrupted_is_set fs seeds ignore st ->
         exists fuel,
           st ∈ Engine.run_history pickle_dumps sha256_hexdigest data_dir
                                   download meta_write_raises
                                   interrupted_is_set fuel fs seeds ignore)
  /\ (forall fuel o st,
         run pickle_dumps sha256_hexdigest data_dir download
             meta_write_raises interrupted_is_set fuel fs seeds ignore
         = Some (o, st) ->
         last (Engine.run_history pickle_dumps sha256_hexdigest data_dir
                                  download meta_write_raises
                                  interrupted_is_set fuel fs seeds ignore)
         = Some st).
Proof.
  split; [|split; [|split; [|split; [|split]]]].
  - intros st0 k [n|st Hr|st st' Hr Hw].
    + destruct (counters_while_seeding fs seeds n k) as [-> ->]. lia.
    + pose proof (reachable_counted _ _ _ _ Hr k). lia.
    + apply (within_turn_counters ignore st st' k); [|exact Hw].
      exact (reachable_counted _ _ _ _ Hr).
  - intros st st' k Hr Hw.
    destruct (within_turn_counters ignore st st' k) as (? & ? & _);
      [exact (reachable_counted _ _ _ _ Hr)|exact Hw|].
    split; assumption.
  - intros n m k Hnm at_seed. subst at_seed. simpl.
    destruct (counters_while_seeding fs seeds n k) as [-> ->].
    destruct (counters_while_seeding fs seeds m k) as [-> ->].
    split; [|lia].
    replace (take n seeds) with (take n (take m seeds)).
    + apply pending_of_take_le.
    + rewrite take_take. f_equal. lia.
  - intros fuel i j a b k Hij Ha Hb.
    destruct (run_history_never_decreasing fuel fs seeds ignore
                                           i j a b Hij Ha Hb k) as [Ht Hd].
    split; [exact Ht|]. split; [exact Hd|].
    apply (run_history_bounded fuel fs seeds ignore).
    exact (list_elem_of_lookup_2 _ _ _ Hb).
  - intros st Ho. exact (observable_run_history _ _ _ _ Ho).
  - intros fuel o st Hr. unfold Engine.run_history.
    rewrite last_app.
    rewrite (history_last _ _ _ _ _ Hr). reflexivity.
Qed.

(** *** Runs over a forest *)

Lemma expanded_after_completion item rest st :
  expanded (mark_completed item
              (with_items (rest ++ yielded (download item))
                 (write_meta item (enter_download item st))))
  = expanded st ++ [item].
Proof. simpl. rewrite expanded_mark_all_total. reflexivity. Qed.

Lemma expanded_after_fault data item st :
  expanded (finish (create_resume_file data (enter_download item st)).2)
  = expanded st ++ [item].
Proof. simpl. rewrite expanded_mark_all_total. reflexivity. Qed.

Lemma tidy_start seeds ignore :
  forest download seeds -> tidy download seeds ignore [] seeds.
Proof.
  intros F. split; simpl.
  - apply (forest_seeds _ _ F).
  - intros x Hx. left. exact Hx.
  - intros x Hx. apply disc_seed. exact Hx.
  - intros x c Hx Hc Hin.
    apply list_elem_of_fmap in Hin as (s & Heq & Hs).
    apply (forest_roots _ _ F s x c Hs); [apply disc_seed| |]; auto.
  - intros x [Hx|(w & Hw & _)]; [auto|].
    apply elem_of_nil in Hw. contradiction.
Qed.

Lemma tidy_skip seeds ignore E x rest :
  ignored ignore x = true ->
  tidy download seeds ignore E (x :: rest) ->
  tidy download seeds ignore E rest.
Proof.
  intros Hi T.
  assert (forall z, z ∈ E ++ rest -> z ∈ E ++ x :: rest) as Hsub.
  { intros z Hz. apply elem_of_app in Hz as [?|?]; apply elem_of_app;
      [left|right; apply elem_of_cons; right]; assumption. }
  split.
  - pose proof (tidy_nodup _ _ _ _ _ T) as N.
    rewrite fmap_app, fmap_cons in N. rewrite fmap_app.
    apply NoDup_app in N as (N1 & N2 & N3).
    apply NoDup_cons in N3 as [_ N3].
    apply NoDup_app. repeat split; [assumption| |assumption].
    intros i Hi1 Hi2. apply (N2 i Hi1). apply elem_of_cons. right. exact Hi2.
  - intros z Hz. apply (tidy_origin _ _ _ _ _ T). auto.
  - intros z Hz. apply (tidy_discovered _ _ _ _ _ T). auto.
  - intros y c Hy Hc Hin.
    apply (tidy_fresh _ _ _ _ _ T y c); [apply elem_of_cons; auto|exact Hc|].
    apply list_elem_of_fmap in Hin as (z & Heq & Hz).
    apply list_elem_of_fmap. exists z. auto.
  - intros z Hz.
    destruct (tidy_kept _ _ _ _ _ T z Hz) as [?|[Hq|?]]; auto.
    apply elem_of_cons in Hq as [->|?]; auto.
Qed.

Lemma tidy_expand seeds ignore E x rest :
  forest download seeds ->
  tidy download seeds ignore E (x :: rest) ->
  tidy download seeds ignore (E ++ [x]) (rest ++ children download x).
Proof.
  intros F T.
  set (ch := children download x).
  assert ((E ++ [x]) ++ rest ++ ch = (E ++ x :: rest) ++ ch) as Hre.
  { rewrite <- !app_assoc. reflexivity. }
  assert (x ∈ E ++ x :: rest) as Hx.
  { apply elem_of_app. right. apply elem_of_cons. left. reflexivity. }
  assert (x ∈ x :: rest) as Hxq by (apply elem_of_cons; left; reflexivity).
  pose proof (tidy_discovered _ _ _ _ _ T x Hx) as Dx.
  pose proof (tidy_nodup _ _ _ _ _ T) as N.
  assert (forall y, y ∈ rest -> as_id_string y <> as_id_string x) as Hrest.
  { intros y Hy Heq.
    rewrite fmap_app, fmap_cons in N.
    apply NoDup_app in N as (_ & _ & N3).
    apply NoDup_cons in N3 as [N3 _]. apply N3.
    rewrite <- Heq. apply list_elem_of_fmap_2. exact Hy. }
  assert (forall y, y ∈ ch -> as_id_string y <> as_id_string x) as Hch.
  { intros y Hy Heq.
    apply (tidy_fresh _ _ _ _ _ T x y Hxq Hy).
    rewrite Heq. apply list_elem_of_fmap_2. exact Hx. }
  split.
  - rewrite Hre, fmap_app. apply NoDup_app. split; [exact N|]. split.
    + intros i Hi1 Hi2.
      apply list_elem_of_fmap in Hi2 as (c & -> & Hc).
      exact (tidy_fresh _ _ _ _ _ T x c Hxq Hc Hi1).
    + apply (forest_children _ _ F x Dx).
  - intros z Hz. rewrite Hre in Hz. apply elem_of_app in Hz as [Hz|Hz].
    + destruct (tidy_origin _ _ _ _ _ T z Hz) as [?|(w & Hw & Hzw)].
      * left. assumption.
      * right. exists w. split; [apply elem_of_app; left|]; assumption.
    + right. exists x. split; [|exact Hz].
      apply elem_of_app. right. apply list_elem_of_singleton. reflexivity.
  - intros z Hz. rewrite Hre in Hz. apply elem_of_app in Hz as [Hz|Hz].
    + exact (tidy_discovered _ _ _ _ _ T z Hz).
    + exact (disc_child _ _ x z Dx Hz).
  - intros y c Hy Hc Hin. rewrite Hre in Hin.
    apply list_elem_of_fmap in Hin as (z & Heq & Hz).
    apply elem_of_app in Hy as [Hy|Hy]; apply elem_of_app in Hz as [Hz|Hz].
    + apply (tidy_fresh _ _ _ _ _ T y c); [apply elem_of_cons; auto|exact Hc|].
      rewrite Heq. apply list_elem_of_fmap_2. exact Hz.
    + assert (discovered download seeds y) as Dy.
      { apply (tidy_discovered _ _ _ _ _ T). apply elem_of_app. right.
        apply elem_of_cons. auto. }
      apply (Hrest y Hy). exact (forest_parent _ _ F y x c z Dy Dx Hc Hz Heq).
    + pose proof (disc_child _ _ x y Dx Hy) as Dy.
      destruct (tidy_origin _ _ _ _ _ T z Hz) as [Hs|(w & Hw & Hzw)].
      * apply (forest_roots _ _ F z y c Hs Dy Hc). congruence.
      * assert (discovered download seeds w) as Dw.
        { apply (tidy_discovered _ _ _ _ _ T). apply elem_of_app. auto. }
        assert (as_id_string w = as_id_string y) as Hwy.
        { apply (forest_parent _ _ F w y z c Dw Dy Hzw Hc). congruence. }
        apply (tidy_fresh _ _ _ _ _ T x y Hxq Hy).
        rewrite <- Hwy. apply list_elem_of_fmap_2. apply elem_of_app. auto.
    + pose proof (disc_child _ _ x y Dx Hy) as Dy.
      apply (Hch y Hy). exact (forest_parent _ _ F y x c z Dy Dx Hc Hz Heq).
  - intros z [Hs|(w & Hw & Hzw)].
    + destruct (tidy_kept _ _ _ _ _ T z (or_introl Hs)) as [?|[Hq|?]].
      * left. apply elem_of_app. auto.
      * apply elem_of_cons in Hq as [->|?].
        -- left. apply elem_of_app. right.
           apply list_elem_of_singleton. reflexivity.
        -- right. left. apply elem_of_app. auto.
      * auto.
    + apply elem_of_app in Hw as [Hw|Hw].
      * assert (met download seeds E z) as Hm by (right; exists w; auto).
        destruct (tidy_kept _ _ _ _ _ T z Hm) as [?|[Hq|?]].
        -- left. apply elem_of_app. auto.
        -- apply elem_of_cons in Hq as [->|?].
           ++ left. apply elem_of_app. right.
              apply list_elem_of_singleton. reflexivity.
           ++ right. left. apply elem_of_app. auto.
        -- auto.
      * apply list_elem_of_singleton in Hw as ->.
        right. left. apply elem_of_app. right. exact Hzw.
Qed.

Lemma tidy_step seeds ignore st st' :
  forest download seeds ->
  tidy download seeds ignore (expanded st) (items st) ->
  step ignore st = Continue st' ->
  tidy download seeds ignore (expanded st') (items st').
Proof.
  intros F T Hs.
  destruct (step_Continue_inv _ _ _ Hs)
    as (item & rest & Hq & [[Hi ->]|(_ & _ & _ & ->)]); rewrite Hq in T.
  - exact (tidy_skip _ _ _ _ _ Hi T).
  - rewrite expanded_after_completion.
    exact (tidy_expand _ _ _ _ _ F T).
Qed.

Lemma NoDup_ids_before E x rest :
  NoDup (as_id_string <$> (E ++ x :: rest)) ->
  NoDup (as_id_string <$> (E ++ [x])).
Proof.
  rewrite !fmap_app, !fmap_cons. intros N.
  apply NoDup_app in N as (N1 & N2 & N3).
  apply NoDup_cons in N3 as [_ _].
  apply NoDup_app. repeat split; [assumption| |].
  - intros i Hi1 Hi2. apply (N2 i Hi1).
    apply list_elem_of_singleton in Hi2 as ->.
    apply elem_of_cons. left. reflexivity.
  - apply NoDup_singleton.
Qed.

(** With distinct identities, an item of the list is the only one of its
    identity. *)
Lemma one_of_its_identity (l : list Downloadable) x :
  NoDup (as_id_string <$> l) -> x ∈ l ->
  length (filter (fun y => as_id_string y = as_id_string x) l) = 1.
Proof.
  induction l as [|y l IH]; intros N Hx.
  - apply elem_of_nil in Hx. contradiction.
  - rewrite fmap_cons in N. apply NoDup_cons in N as [Hy N].
    rewrite filter_cons. case_decide as Heq.
    + simpl. f_equal. apply length_zero_iff_nil.
      destruct (filter _ l) as [|z k] eqn:Hf; [reflexivity|].
      assert (z ∈ filter (fun y0 => as_id_string y0 = as_id_string x) l)
        as Hz by (rewrite Hf; apply elem_of_cons; auto).
      apply list_elem_of_filter in Hz as [Hzx Hz].
      contradiction Hy. rewrite Heq, <- Hzx.
      apply list_elem_of_fmap_2. exact Hz.
    + apply IH; [exact N|].
      apply elem_of_cons in Hx as [->|?]; [contradiction Heq; reflexivity|].
      assumption.
Qed.

(** However a run from a tidy loop head ends, it has entered no identity
    twice; and when it ends with the queue drained, it has entered every
    item it met and did not ignore exactly once. *)
Lemma run_loop_tidy seeds ignore fuel st o st' :
  forest download seeds ->
  tidy download seeds ignore (expanded st) (items st) ->
  run_loop fuel ignore st = Some (o, st') ->
  NoDup (as_id_string <$> expanded st')
  /\ (o = Completed ->
      forall x, met download seeds (expanded st') x ->
                ignored ignore x = false ->
                expansions_of x st' = 1).
Proof.
  intros F. revert st. induction fuel as [|fuel IH]; intros st T Hrun;
    simpl in Hrun; destruct (step ignore st) as [st1|o1 st1] eqn:Hs;
    try discriminate.
  2: { exact (IH st1 (tidy_step _ _ _ _ F T Hs) Hrun). }
  all: injection Hrun as -> ->;
    destruct (step_Stop_inv _ _ _ _ Hs)
      as [(Hq & -> & ->)|(item & rest & Hq & _ & [[-> ->]|(_ & -> & ->)])];
    rewrite Hq in T; pose proof (tidy_nodup _ _ _ _ _ T) as N.
  all: try (split; [|discriminate]).
  all: try (rewrite expanded_after_fault; exact (NoDup_ids_before _ _ _ N)).
  all: try (change (expanded (finish ?s)) with (expanded s);
            change (expanded (create_resume_file ?d ?s).2) with (expanded s);
            rewrite expanded_after_completion;
            exact (NoDup_ids_before _ _ _ N)).
  all: rewrite app_nil_r in N; split; [exact N|];
    intros _ x Hm Hi;
    destruct (tidy_kept _ _ _ _ _ T x Hm) as [Hx|[Hx|Hx]];
    [ exact (one_of_its_identity _ _ N Hx)
    | apply elem_of_nil in Hx; contradiction
    | congruence ].
Qed.

(** *** Termination on a ranked discovery graph *)

Lemma sum_list_with_le {A} (f g : A -> nat) (l : list A) :
  (forall c, c ∈ l -> f c <= g c) -> sum_list_with f l <= sum_list_with g l.
Proof.
  induction l as [|c l IH]; intros H; simpl; [lia|].
  pose proof (H c ltac:(apply elem_of_cons; auto)).
  pose proof (IH ltac:(intros z Hz; apply H, elem_of_cons; auto)).
  lia.
Qed.

Lemma weight_pos n x : 1 <= weight download n x.
Proof. destruct n; simpl; lia. Qed.

Lemma weight_mono n m x :
  n <= m -> weight download n x <= weight download m x.
Proof.
  revert m x. induction n as [|n IH]; intros m x Hnm.
  - apply weight_pos.
  - destruct m as [|m]; [lia|]. simpl. apply le_n_S.
    apply sum_list_with_le. intros c _. apply IH. lia.
Qed.

Lemma children_weigh_less seeds rank x :
  (forall y c, discovered download seeds y -> c ∈ children download y ->
               rank c < rank y) ->
  discovered download seeds x ->
  queue_weight download rank (children download x)
  < weight download (rank x) x.
Proof.
  intros Hrank Dx. unfold queue_weight.
  destruct (rank x) as [|k] eqn:Hk.
  - destruct (children download x) as [|c l] eqn:Hc; [simpl; lia|].
    assert (rank c < rank x) as Hlt.
    { apply Hrank; [exact Dx|]. rewrite Hc. apply elem_of_cons. auto. }
    lia.
  - simpl. apply Nat.lt_succ_r. apply sum_list_with_le.
    intros c Hc. apply weight_mono.
    pose proof (Hrank x c Dx Hc). lia.
Qed.

Lemma step_Continue_weight seeds rank ignore st st' :
  (forall y c, discovered download seeds y -> c ∈ children download y ->
               rank c < rank y) ->
  (forall x, x ∈ items st -> discovered download seeds x) ->
  step ignore st = Continue st' ->
  queue_weight download rank (items st')
  < queue_weight download rank (items st)
  /\ (forall x, x ∈ items st' -> discovered download seeds x).
Proof.
  intros Hrank HD Hs.
  destruct (step_Continue_inv _ _ _ Hs)
    as (item & rest & Hq & [[_ ->]|(_ & _ & _ & ->)]); rewrite Hq in *.
  - split.
    + simpl. pose proof (weight_pos (rank item) item).
      unfold queue_weight. simpl. lia.
    + intros x Hx. apply HD. apply elem_of_cons. auto.
  - assert (discovered download seeds item) as Di.
    { apply HD. apply elem_of_cons. auto. }
    change (items (mark_completed item _))
      with (rest ++ children download item).
    split.
    + pose proof (children_weigh_less seeds rank item Hrank Di) as Hlt.
      unfold queue_weight in *. rewrite sum_list_with_app. simpl. lia.
    + intros x Hx. apply elem_of_app in Hx as [Hx|Hx].
      * apply HD. apply elem_of_cons. auto.
      * exact (disc_child _ _ item x Di Hx).
Qed.

(** The weight of the queue is fuel enough. *)
Lemma run_loop_terminates seeds rank ignore fuel st :
  (forall y c, discovered download seeds y -> c ∈ children download y ->
               rank c < rank y) ->
  (forall x, x ∈ items st -> discovered download seeds x) ->
  queue_weight download rank (items st) <= fuel ->
  exists r, run_loop fuel ignore st = Some r.
Proof.
  intros Hrank. revert st. induction fuel as [|fuel IH]; intros st HD Hw;
    simpl; destruct (step ignore st) as [st1|o1 st1] eqn:Hs; eauto.
  - destruct (step_Continue_weight _ _ _ _ _ Hrank HD Hs) as [Hlt _]. lia.
  - destruct (step_Continue_weight _ _ _ _ _ Hrank HD Hs) as [Hlt HD1].
    apply IH; [exact HD1|lia].
Qed.

(** C1, as the code has it: [run] keeps no record of the identities it has
    seen, so an identity is expanded once for each time it is put on the
    queue.  When the discovery graph is a forest (no cycle, seeds of
    distinct identities, and no identity yielded as a child twice or also
    given as a seed) the run ends, no identity is expanded twice, and when
    the queue drains every item met by the run and not ignored has been
    expanded exactly once. *)
Theorem run_expands_each_identity_once fs seeds ignore :
  forest download seeds ->
  acyclic download seeds ->
  (exists fuel o st',
      run pickle_dumps sha256_hexdigest data_dir download
          meta_write_raises interrupted_is_set fuel fs seeds ignore
      = Some (o, st'))
  /\ (forall fuel o st',
         run pickle_dumps sha256_hexdigest data_dir download
             meta_write_raises interrupted_is_set fuel fs seeds ignore
         = Some (o, st') ->
         NoDup (as_id_string <$> expanded st')
         /\ (o = Completed ->
             forall x, met download seeds (expanded st') x ->
                       ignored ignore x = false ->
                       expansions_of x st' = 1)).
Proof.
  intros F [rank Hrank]. unfold run.
  set (st0 := mark_all_total seeds (init fs seeds)).
  assert (items st0 = seeds) as Hq by apply items_mark_all_total.
  assert (expanded st0 = []) as He by apply expanded_mark_all_total.
  split.
  - destruct (run_loop_terminates seeds rank ignore
                (queue_weight download rank seeds) st0 Hrank)
      as [[o st'] Hr].
    + rewrite Hq. intros x Hx. apply disc_seed. exact Hx.
    + rewrite Hq. lia.
    + eauto.
  - intros fuel o st' Hr.
    apply (run_loop_tidy seeds ignore fuel st0 o st' F); [|exact Hr].
    rewrite Hq, He. apply tidy_start. exact F.
Qed.

(** *** The queue is walked in order *)

Lemma enqueued_snoc seeds E x :
  enqueued download seeds (E ++ [x])
  = enqueued download seeds E ++ children download x.
Proof.
  unfold enqueued. rewrite fmap_app, concat_app. simpl.
  rewrite app_nil_r, app_assoc. reflexivity.
Qed.

Lemma in_order_start (fs : gmap string bytes) seeds ignore :
  in_order download seeds ignore (mark_all_total seeds (init fs seeds)).
Proof.
  exists 0. rewrite expanded_mark_all_total, items_mark_all_total. simpl.
  split; [reflexivity|]. unfold enqueued. simpl. rewrite app_nil_r.
  reflexivity.
Qed.

Lemma in_order_step seeds ignore st st' :
  in_order download seeds ignore st ->
  step ignore st = Continue st' ->
  in_order download seeds ignore st'.
Proof.
  intros (n & HE & HQ) Hs.
  destruct (step_Continue_inv _ _ _ Hs)
    as (item & rest & Hq & [[Hi ->]|(Hi & _ & _ & ->)]).
  - exists (S n). simpl. rewrite Hq in HQ.
    set (L := enqueued download seeds (expanded st)) in *.
    assert (L !! n = Some item) as Hn.
    { rewrite <- (Nat.add_0_r n), <- lookup_drop, <- HQ. reflexivity. }
    split.
    + rewrite (take_S_r _ _ _ Hn), filter_app, <- HE.
      rewrite filter_cons, Hi. case_decide; [discriminate|].
      rewrite filter_nil, app_nil_r. reflexivity.
    + pose proof (drop_S _ _ _ Hn) as Hd. rewrite <- HQ in Hd.
      congruence.
  - exists (S n). rewrite expanded_after_completion, enqueued_snoc.
    change (items (mark_completed item _))
      with (rest ++ children download item).
    rewrite Hq in HQ.
    set (L := enqueued download seeds (expanded st)) in *.
    assert (L !! n = Some item) as Hn.
    { rewrite <- (Nat.add_0_r n), <- lookup_drop, <- HQ. reflexivity. }
    pose proof (lookup_lt_Some _ _ _ Hn) as Hlt.
    split.
    + rewrite take_app_le by lia.
      rewrite (take_S_r _ _ _ Hn), filter_app, <- HE.
      rewrite filter_cons, Hi. case_decide; [|congruence].
      rewrite filter_nil. reflexivity.
    + rewrite drop_app_le by lia.
      pose proof (drop_S _ _ _ Hn) as Hd. rewrite <- HQ in Hd.
      f_equal. congruence.
Qed.

Lemma reachable_in_order fs seeds ignore st :
  reachable pickle_dumps sha256_hexdigest data_dir download
            meta_write_raises interrupted_is_set fs seeds ignore st ->
  in_order download seeds ignore st.
Proof.
  induction 1 as [|st st' _ IH Hs].
  - apply in_order_start.
  - exact (in_order_step _ _ _ _ IH Hs).
Qed.

(** X1: at every loop head the queue is what is left of the sequence of
    everything enqueued (the seeds, then the children of each expanded item
    in the order of the expansions), and the items expanded are, in that
    order, those before it that no rule ignores: items leave the queue in
    the order they entered it and none is put in front.  So nothing is
    lost: every item enqueued is expanded, pending or ignored. *)
Theorem queue_walked_in_order fs seeds ignore st :
  reachable pickle_dumps sha256_hexdigest data_dir download
            meta_write_raises interrupted_is_set fs seeds ignore st ->
  in_order download seeds ignore st
  /\ (forall x, x ∈ enqueued download seeds (expanded st) ->
                x ∈ expanded st \/ x ∈ items st \/ ignored ignore x = true).
Proof.
  intros Hr. pose proof (reachable_in_order _ _ _ _ Hr) as Ho.
  split; [exact Ho|]. destruct Ho as (n & HE & HQ). intros x Hx.
  rewrite <- (take_drop n (enqueued download seeds (expanded st))) in Hx.
  apply elem_of_app in Hx as [Hx|Hx].
  - destruct (ignored ignore x) eqn:Hi; [auto|]. left.
    rewrite HE. apply list_elem_of_filter. auto.
  - right. left. rewrite HQ. exact Hx.
Qed.

(** *** Where a run stops *)

Lemma run_loop_stops fs seeds ignore fuel st o st' :
  reachable pickle_dumps sha256_hexdigest data_dir download
            meta_write_raises interrupted_is_set fs seeds ignore st ->
  run_loop fuel ignore st = Some (o, st') ->
  exists st1,
    reachable pickle_dumps sha256_hexdigest data_dir download
              meta_write_raises interrupted_is_set fs seeds ignore st1
    /\ step ignore st1 = Stop o st'.
Proof.
  revert st. induction fuel as [|fuel IH]; intros st Hr Hrun;
    simpl in Hrun; destruct (step ignore st) as [st1|o1 st1] eqn:Hs;
    try discriminate.
  - injection Hrun as -> ->. eauto.
  - apply (IH st1); [|exact Hrun]. exact (reach_turn _ _ _ _ _ _ _ _ _ _ _ Hr Hs).
  - injection Hrun as -> ->. eauto.
Qed.

(** *** The counters are exact *)

Lemma count_of_after_completion item rest st c :
  count_of (fullstats (mark_completed item
                         (with_items (rest ++ yielded (download item))
                            (write_meta item (enter_download item st))))) c
  = count_of (fullstats st) c
    + (if decide (class_name item = c) then 1 else 0).
Proof.
  simpl. rewrite fullstats_mark_all_total. unfold count_of.
  rewrite lookup_insert. case_decide; [subst c; simpl|]; lia.
Qed.

Lemma pending_of_snoc k l x :
  pending_of k (l ++ [x])
  = pending_of k l + (if decide (STATS_NAME x = k) then 1 else 0).
Proof.
  rewrite pending_of_app, pending_of_cons.
  change (pending_of k []) with 0. case_decide; lia.
Qed.

Lemma pending_of_split (P : Downloadable -> bool) k l :
  pending_of k l
  = pending_of k (filter (fun x => P x = false) l)
    + pending_of k (filter (fun x => P x = true) l).
Proof.
  induction l as [|x l IH]; [reflexivity|].
  rewrite !filter_cons. rewrite pending_of_cons, IH.
  destruct (P x); repeat case_decide; try congruence;
    rewrite pending_of_cons; case_decide; try congruence; lia.
Qed.

Lemma reachable_counters fs seeds ignore st :
  reachable pickle_dumps sha256_hexdigest data_dir download
            meta_write_raises interrupted_is_set fs seeds ignore st ->
  forall k,
    total_of st k = pending_of k (enqueued download seeds (expanded st))
    /\ completed_of st k = pending_of k (expanded st)
    /\ count_of (fullstats st) k
       = length (filter (fun x => class_name x = k) (expanded st)).
Proof.
  induction 1 as [|st st' _ IH Hs]; intros k.
  - rewrite total_of_mark_all_total, completed_of_mark_all_total.
    rewrite expanded_mark_all_total, fullstats_mark_all_total. simpl.
    unfold enqueued, total_of, completed_of, stat_of, count_of. simpl.
    rewrite !lookup_empty, app_nil_r. simpl. repeat split; reflexivity.
  - destruct (IH k) as (Ht & Hc & Hf).
    destruct (step_Continue_inv _ _ _ Hs)
      as (item & rest & Hq & [[_ ->]|(_ & _ & _ & ->)]).
    + exact (conj Ht (conj Hc Hf)).
    + destruct (counters_after_completion item rest st k) as [-> ->].
      rewrite count_of_after_completion, expanded_after_completion.
      rewrite enqueued_snoc, pending_of_app, pending_of_snoc.
      rewrite filter_app, length_app, filter_cons. rewrite Ht, Hc, Hf.
      repeat split; try reflexivity.
      case_decide; reflexivity.
Qed.

(** X2: at every loop head [total] counts, for each statistics name, the
    items of that name enqueued so far (seeds and children of expanded
    items, ignored ones included), [completed] counts the items of that name
    expanded so far, and [fullstats] counts, for each class, the items of
    that class expanded so far. *)
Theorem counters_are_exact fs seeds ignore st :
  reachable pickle_dumps sha256_hexdigest data_dir download
            meta_write_raises interrupted_is_set fs seeds ignore st ->
  forall k,
    total_of st k = pending_of k (enqueued download seeds (expanded st))
    /\ completed_of st k = pending_of k (expanded st)
    /\ count_of (fullstats st) k
       = length (filter (fun x => class_name x = k) (expanded st)).
Proof.
  intros Hr k. destruct (reachable_counters _ _ _ _ Hr k) as (Ht & Hc & Hf).
  repeat split; assumption.
Qed.

Lemma filter_none {A} (Q : A -> Prop) `{forall x, Decision (Q x)}
      (l : list A) :
  (forall x, x ∈ l -> ~ Q x) -> filter Q l = [].
Proof.
  induction l as [|x l IH]; intros Hn; [reflexivity|].
  rewrite filter_cons. case_decide as HQ.
  - exfalso. apply (Hn x); [apply elem_of_cons; auto|exact HQ].
  - apply IH. intros y Hy. apply Hn. apply elem_of_cons. auto.
Qed.

(** X3: when a run ends with the queue drained, every item ever enqueued
    was expanded or ignored, in the order it was enqueued; for each
    statistics name [total] is [completed] plus the number of enqueued items
    of that name that a rule ignored; so [completed] equals [total] when no
    enqueued item was ignored, and stays below it otherwise. *)
Theorem completion_accounts_for_every_item fs seeds ignore fuel st' :
  run pickle_dumps sha256_hexdigest data_dir download
      meta_write_raises interrupted_is_set fuel fs seeds ignore
  = Some (Completed, st') ->
  let L := enqueued download seeds (expanded st') in
  items st' = []
  /\ expanded st' = filter (fun x => ignored ignore x = false) L
  /\ (forall k,
         total_of st' k
         = completed_of st' k
           + pending_of k (filter (fun x => ignored ignore x = true) L))
  /\ ((forall x, x ∈ L -> ignored ignore x = false) ->
      forall k, completed_of st' k = total_of st' k).
Proof.
  intros Hrun L.
  destruct (run_loop_stops fs seeds ignore fuel _ _ _
              (reach_start _ _ _ _ _ _ fs seeds ignore) Hrun)
    as (st1 & Hr & Hs).
  destruct (step_Stop_inv _ _ _ _ Hs)
    as [(Hq & _ & ->)|(item & rest & _ & _ & [[? _]|(_ & ? & _)])];
    try discriminate.
  destruct (reachable_in_order _ _ _ _ Hr) as (n & HE & HQ).
  subst L. change (expanded (finish st1)) with (expanded st1).
  set (L := enqueued download seeds (expanded st1)) in *.
  assert (take n L = L) as Htake.
  { apply take_ge. apply drop_nil_inv. congruence. }
  rewrite Htake in HE.
  assert (forall k,
             total_of (finish st1) k
             = completed_of (finish st1) k
               + pending_of k (filter (fun x => ignored ignore x = true) L))
    as Hsum.
  { intros k. destruct (reachable_counters _ _ _ _ Hr k) as (Ht & Hc & _).
    change (total_of (finish st1) k) with (total_of st1 k).
    change (completed_of (finish st1) k) with (completed_of st1 k).
    fold L in Ht. rewrite Ht, Hc.
    rewrite (pending_of_split (ignored ignore) k L), <- HE. reflexivity. }
  repeat split; [exact Hq|exact HE|exact Hsum|].
  intros Hnone k. rewrite Hsum, filter_none; [unfold pending_of; simpl; lia|].
  intros x Hx. rewrite (Hnone x Hx). discriminate.
Qed.

(** *** What a run leaves on disk *)

Lemma metas_mark_all_total l st : metas (mark_all_total l st) = metas st.
Proof.
  revert st. induction l as [|c l IH]; intros st; [reflexivity|].
  simpl. rewrite IH. reflexivity.
Qed.

Lemma done_mark_all_total l st : done (mark_all_total l st) = done st.
Proof.
  revert st. induction l as [|c l IH]; intros st; [reflexivity|].
  simpl. rewrite IH. reflexivity.
Qed.

Lemma reachable_disk fs seeds ignore st :
  reachable pickle_dumps sha256_hexdigest data_dir download
            meta_write_raises interrupted_is_set fs seeds ignore st ->
  files st = fs /\ done st = false
  /\ metas st = meta_of download <$> expanded st.
Proof.
  induction 1 as [|st st' _ (Hf & Hd & Hm) Hs].
  - rewrite files_mark_all_total, done_mark_all_total.
    rewrite metas_mark_all_total, expanded_mark_all_total.
    repeat split; reflexivity.
  - destruct (step_Continue_inv _ _ _ Hs)
      as (item & rest & Hq & [[_ ->]|(_ & _ & _ & ->)]).
    + exact (conj Hf (conj Hd Hm)).
    + rewrite expanded_after_completion, fmap_app. simpl.
      rewrite files_mark_all_total, done_mark_all_total.
      rewrite metas_mark_all_total, Hm.
      repeat split; assumption.
Qed.

(** X4: whenever a run ends in one of its three outcomes, the reporter is
    stopped and the resume files of the data directory (the files
    [resume-*.pickle] at its root, which is all that [files] holds) are
    those of the start, with, unless the queue drained, one resume file
    written: it is named after its own blob, holds exactly the queue and the
    rules the run ended with, and replaces a file of that name.  A completed
    run writes no resume file.  The directories of the items and their
    [meta.json] files, which a run adds under the data directory, are not
    resume files: [metas] accounts for them. *)
Theorem run_leaves_one_resume_file fs seeds ignore fuel o st' :
  run pickle_dumps sha256_hexdigest data_dir download
      meta_write_raises interrupted_is_set fuel fs seeds ignore
  = Some (o, st') ->
  done st' = true
  /\ match o with
     | Completed => files st' = fs
     | Interrupted p _ | DownloadFailed p _ =>
         let b := pickle_dumps (mkResume (items st') ignore) in
         p = resume_path b /\ files st' = <[p := b]> fs
     end.
Proof.
  intros Hrun.
  destruct (run_loop_stops fs seeds ignore fuel _ _ _
              (reach_start _ _ _ _ _ _ fs seeds ignore) Hrun)
    as (st1 & Hr & Hs).
  destruct (reachable_disk _ _ _ _ Hr) as (Hf & _ & _).
  destruct (step_Stop_inv _ _ _ _ Hs)
    as [(Hq & -> & ->)|(item & rest & Hq & _ & [[-> ->]|(_ & -> & ->)])];
    (split; [reflexivity|]); simpl.
  - exact Hf.
  - rewrite items_mark_all_total, files_mark_all_total, Hq, Hf.
    split; reflexivity.
  - rewrite files_mark_all_total, Hf. split; reflexivity.
Qed.


(** *** The four turns *)

Lemma step_empty ignore st :
  items st = [] -> step ignore st = Stop Completed (finish st).
Proof. intros Hq. unfold Engine.step. rewrite Hq. reflexivity. Qed.

Lemma step_cases ignore st :
  (items st = [] /\ step ignore st = Stop Completed (finish st))
  \/ (exists item rest,
         items st = item :: rest /\ ignored ignore item = true
         /\ step ignore st = Continue (with_items rest st))
  \/ (exists item rest,
         items st = item :: rest /\ ignored ignore item = false
         /\ raises (download item) || meta_write_raises item = true
         /\ step ignore st
            = Stop (DownloadFailed
                      (resume_path
                         (pickle_dumps (mkResume (item :: rest) ignore)))
                      item)
                   (finish (create_resume_file
                              (mkResume (item :: rest) ignore)
                              (enter_download item st)).2))
  \/ (exists item rest,
         items st = item :: rest /\ ignored ignore item = false
         /\ raises (download item) || meta_write_raises item = false
         /\ step ignore st
            = if interrupted_is_set (S (length (expanded st))) then
                Stop (Interrupted
                        (resume_path
                           (pickle_dumps
                              (mkResume (rest ++ yielded (download item))
                                        ignore)))
                        item)
                     (finish (create_resume_file
                                (mkResume (rest ++ yielded (download item))
                                          ignore)
                                (mark_completed item
                                   (with_items
                                      (rest ++ yielded (download item))
                                      (write_meta item
                                         (enter_download item st))))).2)
              else
                Continue (mark_completed item
                            (with_items (rest ++ yielded (download item))
                               (write_meta item (enter_download item st))))).
Proof.
  destruct (items st) as [|item rest] eqn:Hq.
  { left. split; [reflexivity|]. apply step_empty. exact Hq. }
  right. destruct (ignored ignore item) eqn:Hi.
  { left. exists item, rest. repeat split; try assumption.
    apply (step_ignored _ _ item rest); assumption. }
  right.
  destruct (raises (download item) || meta_write_raises item) eqn:Hr.
  - left. exists item, rest. repeat split; try assumption.
    apply (step_fault _ _ item rest); assumption.
  - right. exists item, rest. repeat split; try assumption.
    apply (step_success ignore st item rest Hq Hi Hr).
Qed.

(** *** Termination without the forest *)



(** *** What is expanded *)

Lemma enqueued_origin seeds E x :
  x ∈ enqueued download seeds E ->
  x ∈ seeds \/ exists w, w ∈ E /\ x ∈ children download w.
Proof.
  unfold enqueued. intros Hx. apply elem_of_app in Hx as [Hx|Hx]; [auto|].
  right. apply list_elem_of_In, in_concat in Hx as (l & Hl & Hx).
  apply list_elem_of_In, list_elem_of_fmap in Hl as (w & -> & Hw).
  apply list_elem_of_In in Hx. eauto.
Qed.

Lemma reachable_expanded fs seeds ignore st x :
  reachable pickle_dumps sha256_hexdigest data_dir download
            meta_write_raises interrupted_is_set fs seeds ignore st ->
  x ∈ expanded st ->
  ignored ignore x = false
  /\ (x ∈ seeds \/ exists w, w ∈ expanded st /\ x ∈ children download w).
Proof.
  intros Hr Hx. destruct (reachable_in_order _ _ _ _ Hr) as (n & HE & _).
  rewrite HE in Hx. apply list_elem_of_filter in Hx as [Hi Hx].
  split; [exact Hi|]. apply enqueued_origin.
  rewrite <- (take_drop n (enqueued download seeds (expanded st))).
  apply elem_of_app. auto.
Qed.

(** X18: however a run ends, it has entered [download] only on items that
    no rule ignores and that it was given as seeds or that an item it
    expanded had yielded: nothing below an ignored item is reached through
    it. *)
Theorem only_met_items_are_expanded fs seeds ignore fuel o st' x :
  run pickle_dumps sha256_hexdigest data_dir download
      meta_write_raises interrupted_is_set fuel fs seeds ignore
  = Some (o, st') ->
  x ∈ expanded st' ->
  ignored ignore x = false
  /\ (x ∈ seeds \/ exists w, w ∈ expanded st' /\ x ∈ children download w).
Proof.
  intros Hrun Hx.
  destruct (run_loop_stops fs seeds ignore fuel _ _ _
              (reach_start _ _ _ _ _ _ fs seeds ignore) Hrun)
    as (st1 & Hr & Hs).
  assert (forall item rest,
             items st1 = item :: rest -> ignored ignore item = false ->
             x ∈ expanded st1 ++ [item] ->
             ignored ignore x = false
             /\ (x ∈ seeds
                 \/ exists w, w ∈ expanded st1 ++ [item]
                              /\ x ∈ children download w)) as Hlast.
  { intros item rest Hq Hi Hin. apply elem_of_app in Hin as [Hin|Hin].
    - destruct (reachable_expanded _ _ _ _ _ Hr Hin) as [? [?|(w & ? & ?)]];
        split; auto.
      right. exists w. split; [apply elem_of_app|]; auto.
    - apply list_elem_of_singleton in Hin as ->. split; [exact Hi|].
      destruct (reachable_in_order _ _ _ _ Hr) as (n & _ & HQ).
      assert (item ∈ enqueued download seeds (expanded st1)) as He.
      { rewrite <- (take_drop n (enqueued download seeds (expanded st1))).
        apply elem_of_app. right. rewrite <- HQ, Hq.
        apply elem_of_cons. auto. }
      destruct (enqueued_origin _ _ _ He) as [?|(w & ? & ?)]; [auto|].
      right. exists w. split; [apply elem_of_app|]; auto. }
  destruct (step_Stop_inv _ _ _ _ Hs)
    as [(Hq & -> & ->)|(item & rest & Hq & Hi & [[-> ->]|(_ & -> & ->)])].
  - exact (reachable_expanded _ _ _ _ _ Hr Hx).
  - rewrite expanded_after_fault in Hx |- *. exact (Hlast _ _ Hq Hi Hx).
  - change (expanded (finish ?s)) with (expanded s) in Hx |- *.
    change (expanded (create_resume_file ?d ?s).2) with (expanded s)
      in Hx |- *.
    rewrite expanded_after_completion in Hx |- *.
    exact (Hlast _ _ Hq Hi Hx).
Qed.

End EngineFacts.

(** * The properties on sample runs *)

Section Samples.
Import Engine.
Import Sample.

(** The queue [X; Y; Z'] with the expansion of [X] raising: the resume file
    keeps the three of them. *)
Lemma fault_checkpoint_keeps_head_witness :
  exists st',
    run_loop_with download_faulty never 0 ∅ (start_with [X; Y; Z'])
    = Some (DownloadFailed "/home/u/ilmsdump.out/resume-9f86d08.pickle" X,
            st')
    /\ files st' !! "/home/u/ilmsdump.out/resume-9f86d08.pickle"
       = Some (mkResume [X; Y; Z'] ∅)
    /\ items st' = [X; Y; Z']
    /\ done st' = true.
Proof.
  apply (fault_checkpoint_keeps_head
           pickle_dumps sha256_hexdigest data_dir download_faulty no_fault
           never ∅ (start_with [X; Y; Z']) X [Y; Z'] 0);
    vm_compute; reflexivity.
Defined.

(** The same queue with the flag set when [X] has completed: the resume file
    holds [Y], [Z'] and then the homework that [X] yielded. *)
Lemma interrupt_checkpoint_excludes_completed_witness :
  exists st',
    run_loop_with download_flat always 0 ∅ (start_with [X; Y; Z'])
    = Some (Interrupted "/home/u/ilmsdump.out/resume-9f86d08.pickle" X, st')
    /\ files st' !! "/home/u/ilmsdump.out/resume-9f86d08.pickle"
       = Some (mkResume [Y; Z'; hw] ∅)
    /\ items st' = [Y; Z'; hw]
    /\ expanded st' = [X]
    /\ done st' = true.
Proof.
  apply (interrupt_checkpoint_excludes_completed
           pickle_dumps sha256_hexdigest data_dir download_flat no_fault
           always ∅ (start_with [X; Y; Z']) X [Y; Z'] 0);
    vm_compute; reflexivity.
Defined.

(** A lone video, with the flag set when it has completed. *)
Lemma interrupt_on_last_item_still_interrupts_witness :
  exists st',
    run_loop_with download_flat always 0 ∅ (start_with [Z'])
    = Some (Interrupted "/home/u/ilmsdump.out/resume-9f86d08.pickle" Z', st')
    /\ files st' !! "/home/u/ilmsdump.out/resume-9f86d08.pickle"
       = Some (mkResume [] ∅)
    /\ items st' = []
    /\ (forall st'',
           run_loop_with download_flat always 0 ∅ (start_with [Z'])
           <> Some (Completed, st'')).
Proof.
  apply (interrupt_on_last_item_still_interrupts
           pickle_dumps sha256_hexdigest data_dir download_flat no_fault
           always ∅ (start_with [Z']) Z' 0);
    vm_compute; reflexivity.
Defined.


(** In a run over [X; Y] that drains the queue: while the course is
    downloaded two pages are counted and none is completed; two turns later
    one of them is. *)
Lemma stats_completed_le_total_witness :
  exists a b,
    run_history pickle_dumps sha256_hexdigest data_dir download_flat
                no_fault never 5 ∅ [X; Y] ∅ !! 3 = Some a
    /\ run_history pickle_dumps sha256_hexdigest data_dir download_flat
                   no_fault never 5 ∅ [X; Y] ∅ !! 5 = Some b
    /\ total_of a "Page" <= total_of b "Page"
    /\ completed_of a "Page" <= completed_of b "Page"
    /\ completed_of b "Page" <= total_of b "Page"
    /\ (total_of a "Page", completed_of a "Page") = (2, 0)
    /\ (total_of b "Page", completed_of b "Page") = (2, 1).
Proof.
  pose proof (stats_completed_le_total
                pickle_dumps sha256_hexdigest data_dir download_flat
                no_fault never ∅ [X; Y] ∅) as (_ & _ & _ & H & _).
  pose (a := default (start_with [])
              (run_history pickle_dumps sha256_hexdigest data_dir
                           download_flat no_fault never 5 ∅ [X; Y] ∅ !! 3)).
  pose (b := default (start_with [])
              (run_history pickle_dumps sha256_hexdigest data_dir
                           download_flat no_fault never 5 ∅ [X; Y] ∅ !! 5)).
  destruct (H 5 3 5 a b "Page") as (Ht & Hd & Hb);
    [lia|vm_compute; reflexivity|vm_compute; reflexivity|].
  exists a, b.
  split; [vm_compute; reflexivity|]. split; [vm_compute; reflexivity|].
  split; [exact Ht|]. split; [exact Hd|]. split; [exact Hb|].
  split; vm_compute; reflexivity.
Defined.
End Samples.

(** * Resuming from a resume file *)

Section ResumeFacts.
Import Engine.
Context {bytes : Type}.
Variable pickle_dumps : ResumeData -> bytes.
Variable pickle_load : bytes -> option ResumeData.
Variable sha256_hexdigest : bytes -> string.
Variable data_dir : string.
Variable download : Downloadable -> Download.
Variable meta_write_raises : Downloadable -> bool.
Variable interrupted_is_set : nat -> bool.

(** What [main] reads back from a file written by [create_resume_file],
    given that the blob unpickles to the value pickled: the items in their
    order, and the rules of the file added to those of the command line. *)
Lemma main_resume_after_save data (st : @State bytes) ignore :
  pickle_load (pickle_dumps data) = Some data ->
  let saved := create_resume_file pickle_dumps sha256_hexdigest data_dir
                                  data st in
  main_resume pickle_load (files saved.2) saved.1 ignore
  = Some (resume_items data, ignore ∪ resume_ignore data).
Proof.
  intros Hload. simpl. unfold main_resume.
  rewrite lookup_insert_eq. simpl. rewrite Hload. reflexivity.
Qed.

(** What [main] then runs: the items of the file under the rules of the
    command line alone. *)
Lemma main_resumed_after_save data (st : @State bytes) ignore fuel :
  pickle_load (pickle_dumps data) = Some data ->
  resume_items data <> [] ->
  let saved := create_resume_file pickle_dumps sha256_hexdigest data_dir
                                  data st in
  main_resumed pickle_dumps sha256_hexdigest data_dir download
               meta_write_raises interrupted_is_set pickle_load
               fuel (files saved.2) saved.1 ignore
  = Ran (run pickle_dumps sha256_hexdigest data_dir download
             meta_write_raises interrupted_is_set
             fuel (files saved.2) (resume_items data) ignore).
Proof.
  intros Hload Hne saved. subst saved. unfold main_resumed.
  pose proof (main_resume_after_save data st ignore Hload) as H.
  cbv zeta in H. rewrite H.
  destruct (resume_items data); [contradiction Hne; reflexivity|reflexivity].
Qed.
End ResumeFacts.

Section SampleGraphs.
Import Engine.
Import Sample.

(** C6, on a snapshot with the two items [Z'; Y] of different classes and
    the rule [Video]: [main] reads both back from the resume file, the rule
    into its set [ignores], but hands [run] the rules of the command line
    only.  Resumed with no [--ignore], the run expands the video that the
    saved rule skips: the rules of the snapshot are not restored. *)
Theorem resumed_run_forgets_saved_rules :
  main_resume pickle_load (files saved.2) saved.1 ∅
  = Some ([Z'; Y], ∅ ∪ {["Video"]})
  /\ (exists st',
         main_resumed pickle_dumps sha256_hexdigest data_dir download_flat
                      no_fault never pickle_load 5 (files saved.2) saved.1 ∅
         = Ran (Some (Completed, st'))
         /\ expanded st' = [Z'; Y])
  /\ (exists st',
         run_with download_flat never 5 (files saved.2) [Z'; Y] {["Video"]}
         = Some (Completed, st')
         /\ expanded st' = [Y]).
Proof.
  split; [|split].
  - vm_compute. reflexivity.
  - eexists. split; [vm_compute; reflexivity|reflexivity].
  - eexists. split; [vm_compute; reflexivity|reflexivity].
Qed.

Ltac in_children H :=
  unfold children in H; simpl in H;
  repeat (apply elem_of_cons in H as [->|H]);
  try (apply elem_of_nil in H; contradiction).

Lemma rank_download_shared x c :
  c ∈ children download_shared x -> rank c < rank x.
Proof. intros H. destruct x; in_children H; simpl; lia. Qed.

(** C1 as stated fails: a course whose two announcements link the same
    attachment has a discovery graph without cycles, and the run over it
    expands the identity [Attachment-7] twice. *)
Lemma shared_child_is_expanded_twice :
  (forall x c, c ∈ children download_shared x -> rank c < rank x)
  /\ exists st',
      run_with download_shared never 5 ∅ [X] ∅ = Some (Completed, st')
      /\ as_id_string <$> expanded st'
         = ["Course-74"; "Announcement-1"; "Announcement-2";
            "Attachment-7"; "Attachment-7"]
      /\ ~ NoDup (as_id_string <$> expanded st').
Proof.
  split; [exact rank_download_shared|].
  eexists. split; [vm_compute; reflexivity|]. split; [reflexivity|].
  intros N. vm_compute in N.
  do 3 (apply NoDup_cons in N as [_ N]).
  apply NoDup_cons in N as [N _]. apply N.
  apply list_elem_of_singleton. reflexivity.
Qed.

(** The graph of [download_flat] from the seed [X]. *)
Lemma flat_discovered x : discovered download_flat [X] x -> x = X \/ x = hw.
Proof.
  induction 1 as [s Hs|x c _ _ Hc].
  - apply list_elem_of_singleton in Hs. auto.
  - destruct x; in_children Hc; auto.
Qed.

Lemma flat_forest : forest download_flat [X].
Proof.
  split.
  - apply NoDup_singleton.
  - intros x _. destruct x; unfold children; simpl;
      (apply NoDup_singleton || apply NoDup_nil_2).
  - intros x y c d Dx Dy Hc Hd _.
    destruct (flat_discovered x Dx) as [->| ->];
      [|in_children Hc].
    destruct (flat_discovered y Dy) as [->| ->];
      [reflexivity|in_children Hd].
  - intros s x c Hs _ Hc. apply list_elem_of_singleton in Hs as ->.
    destruct x; in_children Hc; vm_compute; discriminate.
Qed.

Lemma flat_acyclic : acyclic download_flat [X].
Proof.
  exists rank. intros x c _ Hc. destruct x; in_children Hc; simpl; lia.
Qed.

(** A course with one homework: both are expanded, once each. *)
Lemma run_expands_each_identity_once_witness :
  (exists fuel o st',
      run_with download_flat never fuel ∅ [X] ∅ = Some (o, st'))
  /\ (forall fuel o st',
         run_with download_flat never fuel ∅ [X] ∅ = Some (o, st') ->
         NoDup (as_id_string <$> expanded st')
         /\ (o = Completed ->
             forall x, met download_flat [X] (expanded st') x ->
                       ignored ∅ x = false ->
                       expansions_of x st' = 1)).
Proof.
  apply (run_expands_each_identity_once
           pickle_dumps sha256_hexdigest data_dir download_flat no_fault
           never ∅ [X] ∅ flat_forest flat_acyclic).
Defined.
End SampleGraphs.

(** * Stopping and resuming *)

Section Resuming.
Import Engine.
Context {bytes : Type}.
Variable pickle_dumps : ResumeData -> bytes.
Variable pickle_load : bytes -> option ResumeData.
Variable sha256_hexdigest : bytes -> string.
Variable data_dir : string.
Variable download : Downloadable -> Download.
Variable meta_write_raises : Downloadable -> bool.
Variable interrupted_is_set : nat -> bool.

Local Abbreviation quiet := (fun _ : nat => false).
Local Abbreviation loop_of int :=
  (run_loop pickle_dumps sha256_hexdigest data_dir download
            meta_write_raises int).
Local Abbreviation step_of int :=
  (step pickle_dumps sha256_hexdigest data_dir download
        meta_write_raises int).
Local Abbreviation run_of int :=
  (run pickle_dumps sha256_hexdigest data_dir download
       meta_write_raises int).
Local Abbreviation cases_of int :=
  (step_cases pickle_dumps sha256_hexdigest data_dir download
              meta_write_raises int).

Implicit Types (st : @State bytes) (ignore : gset string).

(** What a loop that nobody interrupts expands from a state depends on the
    queue of that state only. *)
Lemma quiet_loop_follows_queue ignore fuel st1 st2 st1' :
  items st1 = items st2 ->
  loop_of quiet fuel ignore st1 = Some (Completed, st1') ->
  exists st2' T,
    loop_of quiet fuel ignore st2 = Some (Completed, st2')
    /\ expanded st1' = expanded st1 ++ T
    /\ expanded st2' = expanded st2 ++ T.
Proof.
  revert st1 st2. induction fuel as [|fuel IH]; intros st1 st2 Hq Hrun;
    destruct (cases_of quiet ignore st1)
      as [(Hq1 & Hs1)
         |[(item & rest & Hq1 & Hi & Hs1)
          |[(item & rest & Hq1 & Hi & Hr & Hs1)
           |(item & rest & Hq1 & Hi & Hr & Hs1)]]];
    cbv beta iota in Hs1; simpl in Hrun; rewrite Hs1 in Hrun;
    try discriminate;
    rewrite Hq1 in Hq; symmetry in Hq.
  - injection Hrun as <-. exists (finish st2), [].
    simpl. rewrite (step_empty _ _ _ _ _ _ _ _ Hq).
    rewrite !app_nil_r. repeat split; reflexivity.
  - injection Hrun as <-. exists (finish st2), [].
    simpl. rewrite (step_empty _ _ _ _ _ _ _ _ Hq).
    rewrite !app_nil_r. repeat split; reflexivity.
  - destruct (IH (with_items rest st1) (with_items rest st2) eq_refl Hrun)
      as (st2' & T & H2 & HT1 & HT2).
    exists st2', T. simpl.
    rewrite (step_ignored _ _ _ _ _ _ _ _ _ _ Hq Hi).
    repeat split; assumption.
  - pose proof (step_success pickle_dumps sha256_hexdigest data_dir download
                  meta_write_raises quiet ignore st2 item rest Hq Hi Hr)
      as Hs2.
    cbv beta iota zeta in Hs2.
    match type of Hs2 with _ = Continue ?s => set (st2a := s) in * end.
    match type of Hrun with loop_of _ _ _ ?s = _ => set (st1a := s) in * end.
    destruct (IH st1a st2a eq_refl Hrun) as (st2' & T & H2 & HT1 & HT2).
    exists st2', (item :: T). simpl. rewrite Hs2.
    subst st1a st2a. rewrite expanded_after_completion in HT1, HT2.
    rewrite <- app_assoc in HT1, HT2.
    repeat split; assumption.
Qed.

(** Up to the turn that finds the flag set, an interrupted loop and the
    loop nobody interrupts go through the same states. *)
Lemma interrupted_loop_is_a_prefix ignore fuelB fuelA st p x stB stA :
  loop_of interrupted_is_set fuelB ignore st = Some (Interrupted p x, stB) ->
  loop_of quiet fuelA ignore st = Some (Completed, stA) ->
  exists st2 fuelC,
    fuelC <= fuelA
    /\ items st2 = items stB
    /\ expanded st2 = expanded stB
    /\ loop_of quiet fuelC ignore st2 = Some (Completed, stA).
Proof.
  revert st fuelA. induction fuelB as [|fuelB IH]; intros st fuelA HB HA;
    destruct (cases_of interrupted_is_set ignore st)
      as [(Hq & Hs)
         |[(item & rest & Hq & Hi & Hs)
          |[(item & rest & Hq & Hi & Hr & Hs)
           |(item & rest & Hq & Hi & Hr & Hs)]]];
    simpl in HB; rewrite Hs in HB; try discriminate.
  - (* the flag is found set, out of fuel or not *)
    destruct (interrupted_is_set (S (length (expanded st)))); [|discriminate].
    injection HB as <- <- <-.
    pose proof (step_success pickle_dumps sha256_hexdigest data_dir download
                  meta_write_raises quiet ignore st item rest Hq Hi Hr) as HsA.
    cbv beta iota zeta in HsA.
    destruct fuelA as [|fuelA]; simpl in HA; rewrite HsA in HA;
      [discriminate|].
    eexists _, fuelA. split; [lia|]. split; [|split; [|exact HA]]; reflexivity.
  - (* an ignored head *)
    pose proof (step_ignored pickle_dumps sha256_hexdigest data_dir download
                  meta_write_raises quiet ignore st item rest Hq Hi) as HsA.
    destruct fuelA as [|fuelA]; simpl in HA; rewrite HsA in HA;
      [discriminate|].
    destruct (IH _ _ HB HA) as (st2 & fuelC & Hle & H1 & H2 & H3).
    exists st2, fuelC. split; [lia|]. auto.
  - (* a completed head *)
    pose proof (step_success pickle_dumps sha256_hexdigest data_dir download
                  meta_write_raises quiet ignore st item rest Hq Hi Hr) as HsA.
    cbv beta iota zeta in HsA.
    destruct fuelA as [|fuelA]; simpl in HA; rewrite HsA in HA;
      [discriminate|].
    destruct (interrupted_is_set (S (length (expanded st)))).
    + injection HB as <- <- <-.
      eexists _, fuelA. split; [lia|].
      split; [|split; [|exact HA]]; reflexivity.
    + destruct (IH _ _ HB HA) as (st2 & fuelC & Hle & H1 & H2 & H3).
      exists st2, fuelC. split; [lia|]. auto.
Qed.

(** X6: interrupting a run and resuming from the queue of its resume file
    expands what a run nobody interrupts expands, in the same order: the
    resumed run completes, within the fuel of the uninterrupted one, and the
    expansions of the two parts, put end to end, are those of the whole.
    Nothing is expanded twice because of the interruption, nothing is
    skipped. *)
Theorem interrupted_then_resumed fs fs' seeds ignore fuelB fuelA p x stB stA :
  run pickle_dumps sha256_hexdigest data_dir download meta_write_raises
      interrupted_is_set fuelB fs seeds ignore
  = Some (Interrupted p x, stB) ->
  run pickle_dumps sha256_hexdigest data_dir download meta_write_raises
      (fun _ => false) fuelA fs seeds ignore
  = Some (Completed, stA) ->
  exists fuelC stC,
    fuelC <= fuelA
    /\ run pickle_dumps sha256_hexdigest data_dir download meta_write_raises
           (fun _ => false) fuelC fs' (items stB) ignore
       = Some (Completed, stC)
    /\ expanded stA = expanded stB ++ expanded stC.
Proof.
  intros HB HA.
  destruct (interrupted_loop_is_a_prefix _ _ _ _ _ _ _ _ HB HA)
    as (st2 & fuelC & Hle & Hq & He & HC).
  set (st0 := mark_all_total (items stB) (init fs' (items stB))).
  assert (items st2 = items st0) as Hq0.
  { subst st0. rewrite items_mark_all_total. exact Hq. }
  destruct (quiet_loop_follows_queue ignore fuelC st2 st0 stA Hq0 HC)
    as (stC & T & HrunC & HT1 & HT2).
  exists fuelC, stC. split; [exact Hle|]. split; [exact HrunC|].
  subst st0. rewrite expanded_mark_all_total in HT2. simpl in HT2.
  rewrite HT1, HT2, He. reflexivity.
Qed.

(** X7: when a run stops before the queue drains, the resume file it names
    unpickles in [main] to the queue the run stopped with, and a download
    resumed with the same rules runs on that queue; after a fault the item
    that failed is its first item.  The rules of the file are added to those
    of the command line in [main]'s set [ignores]. *)
Theorem stopped_run_resumes_from_its_queue fs seeds ignore cli fuel fuel' o st' :
  (forall d, pickle_load (pickle_dumps d) = Some d) ->
  run_of interrupted_is_set fuel fs seeds ignore = Some (o, st') ->
  match o with
  | Completed => True
  | Interrupted p _ | DownloadFailed p _ =>
      main_resume pickle_load (files st') p cli
      = Some (items st', cli ∪ ignore)
      /\ main_resumed pickle_dumps sha256_hexdigest data_dir download
                      meta_write_raises interrupted_is_set pickle_load
                      fuel' (files st') p ignore
         = match items st' with
           | [] => NothingToDo
           | _ :: _ =>
               Ran (run_of interrupted_is_set fuel' (files st') (items st')
                           ignore)
           end
  end
  /\ match o with
     | DownloadFailed _ item => exists rest, items st' = item :: rest
     | _ => True
     end.
Proof.
  intros Hload Hrun.
  destruct (run_loop_stops _ _ _ _ _ _ fs seeds ignore fuel _ _ _
              (reach_start _ _ _ _ _ _ fs seeds ignore) Hrun)
    as (st1 & Hr & Hs).
  assert (forall rules data (st : @State bytes),
             let saved := create_resume_file pickle_dumps sha256_hexdigest
                                             data_dir data st in
             main_resume pickle_load (files saved.2) saved.1 rules
             = Some (resume_items data, rules ∪ resume_ignore data))
    as Hback.
  { intros rules data st. simpl. unfold main_resume.
    rewrite lookup_insert_eq. simpl. rewrite Hload. reflexivity. }
  destruct (step_Stop_inv _ _ _ _ _ _ _ _ _ _ Hs)
    as [(Hq & -> & ->)|(item & rest & Hq & _ & [[-> ->]|(_ & -> & ->)])].
  - split; exact I.
  - pose proof (fun rules => Hback rules (mkResume (item :: rest) ignore)
                                    (enter_download download item st1)) as Hm.
    simpl in Hm. split; [split|].
    + simpl. rewrite items_mark_all_total, Hq. apply Hm.
    + unfold main_resumed. simpl.
      rewrite items_mark_all_total, Hq. simpl in Hm |- *. rewrite Hm.
      reflexivity.
    + exists rest. simpl. rewrite items_mark_all_total. exact Hq.
  - match goal with
    | |- context [create_resume_file _ _ _ ?d ?s] =>
        pose proof (fun rules => Hback rules d s) as Hm
    end.
    simpl in Hm. split; [split|exact I].
    + simpl. apply Hm.
    + unfold main_resumed. simpl. rewrite Hm.
      destruct (rest ++ yielded (download item)); reflexivity.
Qed.
End Resuming.

(** * Bounds of the transport *)

Section TransportBounds.
Import Transport.
Context {Response : Type}.
Implicit Types (srv : nat -> Attempt Response) (r : Response).

(** An attempt either responds, fails with the transient error, or fails
    with another one. *)
Lemma attempt_cases srv k :
  (exists r, srv k = Responds r)
  \/ srv k = Throws transient
  \/ (exists e, srv k = Throws e /\ e <> transient).
Proof.
  destruct (srv k) as [r|[status|name]] eqn:Hk.
  - left. eauto.
  - destruct (Z.eqb_spec status 400) as [->|Hne].
    + right. left. reflexivity.
    + right. right. eexists. split; [reflexivity|].
      intros [=]. contradiction.
  - right. right. eexists. split; [reflexivity|discriminate].
Qed.

(** X8: whatever the server does, a call makes at most four attempts, sleeps
    once between two attempts and never after the last, for 5, 20 and 80
    seconds in that order: at most 105 seconds in all. *)
Theorem request_is_bounded srv :
  attempts (request srv) <= 4
  /\ attempts (request srv) = S (length (slept (request srv)))
  /\ (exists later, slept (request srv) ++ later = [5; 20; 80]%Z)
  /\ (foldr Z.add 0 (slept (request srv)) <= 105)%Z.
Proof.
  unfold request.
  destruct (attempt_cases srv 0) as [[r H0]|[H0|(e & H0 & Hne)]];
    [rewrite (request_loop_responds _ _ _ _ _ _ H0)
    | rewrite (request_loop_transient _ _ _ _ _ H0)
    | rewrite (request_loop_fatal _ _ _ _ _ _ H0 Hne)];
    [simpl; repeat split; [lia|eexists; reflexivity|lia]| |
     simpl; repeat split; [lia|eexists; reflexivity|lia]].
  destruct (attempt_cases srv 1) as [[r H1]|[H1|(e & H1 & Hne)]];
    [rewrite (request_loop_responds _ _ _ _ _ _ H1)
    | rewrite (request_loop_transient _ _ _ _ _ H1)
    | rewrite (request_loop_fatal _ _ _ _ _ _ H1 Hne)];
    [simpl; repeat split; [lia|eexists; reflexivity|lia]| |
     simpl; repeat split; [lia|eexists; reflexivity|lia]].
  destruct (attempt_cases srv 2) as [[r H2]|[H2|(e & H2 & Hne)]];
    [rewrite (request_loop_responds _ _ _ _ _ _ H2)
    | rewrite (request_loop_transient _ _ _ _ _ H2)
    | rewrite (request_loop_fatal _ _ _ _ _ _ H2 Hne)];
    [simpl; repeat split; [lia|eexists; reflexivity|lia]| |
     simpl; repeat split; [lia|eexists; reflexivity|lia]].
  destruct (srv 3) as [r|e] eqn:H3;
    [rewrite (request_loop_responds _ _ _ _ _ _ H3)
    | rewrite (request_loop_exhausted _ _ _ _ _ H3)];
    simpl; repeat split; try lia; exists []; reflexivity.
Qed.

(** X9: a call returns a response exactly when one of the first four
    attempts responds and every attempt before it failed with status 400;
    the response is that of this attempt. *)
Theorem request_yields_iff srv r :
  result (request srv) = Yielded r
  <-> exists k, k < 4 /\ srv k = Responds r
                /\ forall j, j < k -> srv j = Throws transient.
Proof.
  unfold request. split.
  - intros H.
    destruct (attempt_cases srv 0) as [[r0 H0]|[H0|(e & H0 & Hne)]];
      [rewrite (request_loop_responds _ _ _ _ _ _ H0) in H; simpl in H
      | rewrite (request_loop_transient _ _ _ _ _ H0) in H
      | rewrite (request_loop_fatal _ _ _ _ _ _ H0 Hne) in H;
        simpl in H; discriminate].
    { injection H as ->. exists 0. repeat split; [lia|exact H0|].
      intros j Hj. lia. }
    destruct (attempt_cases srv 1) as [[r1 H1]|[H1|(e & H1 & Hne)]];
      [rewrite (request_loop_responds _ _ _ _ _ _ H1) in H; simpl in H
      | rewrite (request_loop_transient _ _ _ _ _ H1) in H
      | rewrite (request_loop_fatal _ _ _ _ _ _ H1 Hne) in H;
        simpl in H; discriminate].
    { injection H as ->. exists 1. repeat split; [lia|exact H1|].
      intros j Hj. replace j with 0 by lia. exact H0. }
    destruct (attempt_cases srv 2) as [[r2 H2]|[H2|(e & H2 & Hne)]];
      [rewrite (request_loop_responds _ _ _ _ _ _ H2) in H; simpl in H
      | rewrite (request_loop_transient _ _ _ _ _ H2) in H
      | rewrite (request_loop_fatal _ _ _ _ _ _ H2 Hne) in H;
        simpl in H; discriminate].
    { injection H as ->. exists 2. repeat split; [lia|exact H2|].
      intros j Hj. destruct j as [|[|j]]; [assumption|assumption|lia]. }
    destruct (srv 3) as [r3|e] eqn:H3;
      [rewrite (request_loop_responds _ _ _ _ _ _ H3) in H
      | rewrite (request_loop_exhausted _ _ _ _ _ H3) in H];
      simpl in H; try discriminate.
    injection H as ->. exists 3. repeat split; [lia|exact H3|].
    intros j Hj. destruct j as [|[|[|j]]]; try assumption. lia.
  - intros (k & Hk & Hr & Hbefore).
    destruct k as [|[|[|[|k]]]]; try lia.
    + rewrite (request_loop_responds _ _ _ _ _ _ Hr). reflexivity.
    + rewrite (request_loop_transient _ _ _ _ _ (Hbefore 0 ltac:(lia))).
      rewrite (request_loop_responds _ _ _ _ _ _ Hr). reflexivity.
    + rewrite (request_loop_transient _ _ _ _ _ (Hbefore 0 ltac:(lia))).
      rewrite (request_loop_transient _ _ _ _ _ (Hbefore 1 ltac:(lia))).
      rewrite (request_loop_responds _ _ _ _ _ _ Hr). reflexivity.
    + rewrite (request_loop_transient _ _ _ _ _ (Hbefore 0 ltac:(lia))).
      rewrite (request_loop_transient _ _ _ _ _ (Hbefore 1 ltac:(lia))).
      rewrite (request_loop_transient _ _ _ _ _ (Hbefore 2 ltac:(lia))).
      rewrite (request_loop_responds _ _ _ _ _ _ Hr). reflexivity.
Qed.
End TransportBounds.

(** * Identities, directories and metadata *)

Section StorageFacts.
Import Engine.
Import Storage.

Lemma as_id_string_parts x y :
  as_id_string x = as_id_string y ->
  class_name x = class_name y /\ item_id x = item_id y.
Proof.
  unfold as_id_string. intros H.
  destruct x, y; simpl in H; simplify_eq; split; simpl;
    first [reflexivity | apply (inj pretty); assumption | congruence].
Qed.

Lemma lower_class_name x y :
  lower (class_name x) = lower (class_name y) -> class_name x = class_name y.
Proof. destruct x, y; simpl; intros H; (reflexivity || discriminate H). Qed.

(** X10: the identity string of an item determines its class and its id,
    and nothing else: two items have the same identity string exactly when
    they are of the same class with the same id, whatever their other
    fields. *)
Theorem identity_string_is_class_and_id x y :
  as_id_string x = as_id_string y
  <-> class_name x = class_name y /\ item_id x = item_id y.
Proof.
  split; [apply as_id_string_parts|].
  intros [Hc Hi]. unfold as_id_string. rewrite Hc, Hi. reflexivity.
Qed.

(** X11: under one data directory two items are stored in the same directory
    exactly when they have the same identity string: items of different
    identities never share a [meta.json], and an identity met twice is
    written to the same place. *)
Theorem same_directory_iff_same_identity data_dir x y :
  get_dir_for data_dir x = get_dir_for data_dir y
  <-> as_id_string x = as_id_string y.
Proof.
  unfold get_dir_for. split.
  - intros H. apply app_inv_head in H. injection H as Hc Hi.
    apply lower_class_name in Hc. unfold as_id_string. rewrite Hc, Hi.
    reflexivity.
  - intros H. destruct (as_id_string_parts x y H) as [Hc Hi].
    rewrite Hc, Hi. reflexivity.
Qed.

Lemma dict_set_absent k v d :
  (k ∉ d.*1) -> dict_set k v d = d ++ [(k, v)].
Proof.
  induction d as [|[k' v'] d IH]; intros Hk; [reflexivity|].
  simpl in *. apply not_elem_of_cons in Hk as [Hne Hk].
  case_decide; [congruence|]. rewrite IH by assumption. reflexivity.
Qed.

(** X12: no dataclass of the program has a field named [children], and no
    field twice: the dictionary written to [meta.json] is the attributes of
    the item, in the order of their declaration, followed by the entry
    [children], which overwrites none of them, and its keys are distinct. *)
Theorem meta_json_keeps_attributes basename replace_illegal item item_children :
  meta_json basename replace_illegal item item_children
  = get_meta basename replace_illegal item
      ++ [("children", VList (as_id_string <$> item_children))]
  /\ NoDup ((meta_json basename replace_illegal item item_children).*1).
Proof.
  assert (("children" ∉ (get_meta basename replace_illegal item).*1)
          /\ NoDup ((get_meta basename replace_illegal item).*1))
    as [Hc Hn].
  { destruct item; simpl; split;
      repeat (apply not_elem_of_cons; split; [discriminate|]);
      try apply not_elem_of_nil;
      repeat (apply NoDup_cons; split;
              [repeat (apply not_elem_of_cons; split; [discriminate|]);
               apply not_elem_of_nil|]);
      apply NoDup_nil_2. }
  unfold meta_json. rewrite (dict_set_absent _ _ _ Hc).
  split; [reflexivity|].
  rewrite fmap_app. apply NoDup_app. repeat split; [exact Hn| |].
  - intros k Hk Hk'. apply list_elem_of_singleton in Hk'. simpl in Hk'.
    subst k. contradiction.
  - apply NoDup_singleton.
Qed.
End StorageFacts.

(** * The attachments of a page *)

Section ScrapingFacts.
Import Engine.
Import Scraping.
Variable strips_to_empty : string -> bool.

Ltac anchor_cases a :=
  simpl;
  destruct (a_text a) as [txt|] eqn:Ht;
  [destruct (strips_to_empty txt) eqn:Hb;
   [|destruct (a_id a) as [id_|] eqn:Hid;
     [case_bool_decide as Hseen|]]|];
  simpl.

Lemma attachments_from_fresh parent ids anchors x :
  x ∈ yielded (attachments_from strips_to_empty parent ids anchors) ->
  (item_id x ∉ ids)
  /\ exists title, x = Attachment (item_id x) title parent.
Proof.
  revert ids. induction anchors as [|a anchors IH]; intros ids Hx.
  { apply elem_of_nil in Hx. contradiction. }
  revert Hx. anchor_cases a; intros Hx; try (apply IH; exact Hx).
  - apply elem_of_cons in Hx as [->|Hx]; [simpl; eauto|].
    destruct (IH _ Hx) as [Hfresh Hshape]. split; [|exact Hshape].
    intros Hin. apply Hfresh. apply elem_of_union. auto.
  - apply elem_of_nil in Hx. contradiction.
Qed.

Lemma attachments_from_distinct parent ids anchors :
  NoDup (item_id <$>
           yielded (attachments_from strips_to_empty parent ids anchors)).
Proof.
  revert ids. induction anchors as [|a anchors IH]; intros ids.
  { apply NoDup_nil_2. }
  anchor_cases a; try apply IH; try apply NoDup_nil_2.
  apply NoDup_cons. split; [|apply IH].
  intros Hin. apply list_elem_of_fmap in Hin as (x & Heq & Hx).
  destruct (attachments_from_fresh _ _ _ _ Hx) as [Hfresh _].
  apply Hfresh. rewrite <- Heq. apply elem_of_union. left.
  apply elem_of_singleton. reflexivity.
Qed.

Lemma attachments_from_complete parent ids anchors a text i :
  raises (attachments_from strips_to_empty parent ids anchors) = false ->
  a ∈ anchors ->
  a_text a = Some text -> strips_to_empty text = false -> a_id a = Some i ->
  i ∈ ids
  \/ exists title,
      Attachment i title parent
      ∈ yielded (attachments_from strips_to_empty parent ids anchors).
Proof.
  revert ids. induction anchors as [|b anchors IH];
    intros ids Hr Ha Hta Hba Hia.
  { apply elem_of_nil in Ha. contradiction. }
  revert Hr. apply elem_of_cons in Ha as [<-|Ha].
  - simpl. rewrite Hta, Hba, Hia. case_bool_decide as Hseen; [auto|].
    intros _. right. eexists. apply elem_of_cons. left. reflexivity.
  - anchor_cases b; intros Hr; try (apply IH; assumption);
      try discriminate.
    destruct (IH _ Hr Ha Hta Hba Hia) as [Hi|(title & Hi)].
    + apply elem_of_union in Hi as [Hi|Hi]; [|auto].
      apply elem_of_singleton in Hi as ->. right. eexists.
      apply elem_of_cons. left. reflexivity.
    + right. exists title. apply elem_of_cons. auto.
Qed.

Lemma distinct_ids_distinct_identities (l : list Downloadable) :
  NoDup (item_id <$> l) -> NoDup (as_id_string <$> l).
Proof.
  induction l as [|x l IH]; intros N; [apply NoDup_nil_2|].
  rewrite fmap_cons in N. apply NoDup_cons in N as [Hx N].
  rewrite fmap_cons. apply NoDup_cons. split; [|auto].
  intros Hin. apply list_elem_of_fmap in Hin as (y & Heq & Hy).
  apply Hx. apply as_id_string_parts in Heq as [_ ->].
  apply list_elem_of_fmap_2. exact Hy.
Qed.

(** X13: [get_attachments] yields attachments of the given parent only, no
    two of them with the same id, hence of distinct identity strings; and
    unless it raises, every anchor with a text that is not blank and a
    readable id has its id among those yielded. *)
Theorem get_attachments_yields_each_id_once parent anchors :
  let r := get_attachments strips_to_empty parent anchors in
  NoDup (as_id_string <$> yielded r)
  /\ (forall x, x ∈ yielded r ->
                exists i title, x = Attachment i title parent)
  /\ (raises r = false ->
      forall a text i,
        a ∈ anchors -> a_text a = Some text ->
        strips_to_empty text = false -> a_id a = Some i ->
        exists title, Attachment i title parent ∈ yielded r).
Proof.
  unfold get_attachments. repeat split.
  - apply distinct_ids_distinct_identities, attachments_from_distinct.
  - intros x Hx.
    destruct (attachments_from_fresh _ _ _ _ Hx) as [_ [title Heq]]. eauto.
  - intros Hr a text i Ha Hta Hba Hia.
    destruct (attachments_from_complete _ _ _ _ _ _ Hr Ha Hta Hba Hia)
      as [Hi|?]; [|assumption].
    apply not_elem_of_empty in Hi. contradiction.
Qed.
End ScrapingFacts.

(** * The sliding window of the reporter *)

Section ReporterFacts.
Import Reporter.
Context {Time Rate : Type}.
Variable zero : Rate.
Variable slope : Z -> Z -> Time -> Time -> option Rate.

Lemma rates_after_snoc (samples : list (Time * Z)) s :
  rates_after zero slope (samples ++ [s])
  = rates ← rates_after zero slope samples;
    snd <$> update_rates zero slope s.1 s.2 rates.
Proof. unfold rates_after. rewrite foldl_app. reflexivity. Qed.

Lemma update_rates_Some now bytes_now (rates : list (Time * Z)) r rates' :
  update_rates zero slope now bytes_now rates = Some (r, rates') ->
  rates' = deque_append (now, bytes_now) rates.
Proof.
  unfold update_rates. intros H.
  destruct (match rates with
            | [] => Some zero
            | (then_, old_size) :: _ => slope bytes_now old_size now then_
            end) as [bandwidth|]; [|discriminate].
  simpl in H. injection H as _ <-. reflexivity.
Qed.

Lemma deque_append_window (samples : list (Time * Z)) s :
  deque_append s (drop (length samples - maxlen) samples)
  = drop (S (length samples) - maxlen) (samples ++ [s]).
Proof.
  unfold deque_append, maxlen. rewrite length_drop.
  destruct (Nat.ltb_spec (length samples - (length samples - 20)) 20)
    as [Hlt|Hge].
  - assert (length samples < 20) as Hs by lia.
    replace (length samples - 20) with 0 by lia.
    replace (S (length samples) - 20) with 0 by lia.
    reflexivity.
  - assert (20 <= length samples) as Hs by lia.
    rewrite drop_drop.
    replace (S (length samples) - 20)
      with (length samples - 20 + 1) by lia.
    rewrite drop_app_le by lia. reflexivity.
Qed.

Lemma rates_after_window (samples : list (Time * Z)) rates :
  rates_after zero slope samples = Some rates ->
  rates = drop (length samples - maxlen) samples.
Proof.
  revert rates.
  induction samples as [|s samples IH] using rev_ind; intros rates H.
  - injection H as <-. reflexivity.
  - rewrite rates_after_snoc in H.
    destruct (rates_after zero slope samples) as [rates0|]; [|discriminate].
    simpl in H.
    destruct (update_rates zero slope s.1 s.2 rates0) as [[r rates1]|] eqn:Hu;
      [|discriminate].
    simpl in H. injection H as <-.
    apply update_rates_Some in Hu as ->.
    rewrite (IH rates0 eq_refl), length_app. simpl.
    replace (length samples + 1) with (S (length samples)) by lia.
    destruct s as [t b]. apply deque_append_window.
Qed.

(** X14: as long as no update raises, the deque of the reporter holds the
    last twenty samples, oldest first, and all of them while there are fewer
    than twenty.  The next update measures the bandwidth from the oldest
    sample kept, twenty updates back at most: it is [0] on the first update,
    the update raises when the division does, and otherwise the new sample
    is appended and the window moves on.  When the clock reads what it read
    for the oldest sample kept, the update raises ([ZeroDivisionError])
    with nothing appended, and there is no deque after it. *)
Theorem rates_keep_the_last_twenty (samples : list (Time * Z)) rates
        now bytes_now :
  slope_of_equal_readings slope ->
  rates_after zero slope samples = Some rates ->
  rates = drop (length samples - 20) samples
  /\ length rates = min (length samples) 20
  /\ update_rates zero slope now bytes_now rates
     = match samples !! (length samples - 20) with
       | None => Some (zero, [(now, bytes_now)])
       | Some (then_, old_size) =>
           bandwidth ← slope bytes_now old_size now then_;
           Some (bandwidth,
                 drop (S (length samples) - 20)
                      (samples ++ [(now, bytes_now)]))
       end
  /\ (forall old_size,
         samples !! (length samples - 20) = Some (now, old_size) ->
         update_rates zero slope now bytes_now rates = None
         /\ rates_after zero slope (samples ++ [(now, bytes_now)]) = None).
Proof.
  intros Hzero Hrates.
  pose proof (rates_after_window _ _ Hrates) as Hw.
  change maxlen with 20 in Hw.
  assert (update_rates zero slope now bytes_now rates
          = match samples !! (length samples - 20) with
            | None => Some (zero, [(now, bytes_now)])
            | Some (then_, old_size) =>
                bandwidth ← slope bytes_now old_size now then_;
                Some (bandwidth,
                      drop (S (length samples) - 20)
                           (samples ++ [(now, bytes_now)]))
            end) as Hu.
  { pose proof (deque_append_window samples (now, bytes_now)) as Hd.
    change maxlen with 20 in Hd. rewrite <- Hw in Hd.
    assert (rates !! 0 = samples !! (length samples - 20)) as Hl.
    { rewrite Hw at 1. rewrite lookup_drop. f_equal. lia. }
    rewrite <- Hl, <- Hd. unfold update_rates.
    destruct rates as [|[then_ old_size] rates']; reflexivity. }
  split; [exact Hw|]. split; [|split; [exact Hu|]].
  - rewrite Hw, length_drop. lia.
  - intros old_size Hold.
    assert (update_rates zero slope now bytes_now rates = None) as Hnone.
    { rewrite Hu, Hold, (Hzero bytes_now old_size now). reflexivity. }
    split; [exact Hnone|].
    rewrite rates_after_snoc, Hrates. simpl. rewrite Hnone. reflexivity.
Qed.
End ReporterFacts.

(** * Saved credentials *)

Section CredentialsFacts.
Import Credentials.
Variable linesep : Text.
Variable get_login_state : Text -> option Text * option Text.
Variable password_login : Text -> Text -> option Text * bool.

Local Abbreviation ensure :=
  (ensure_authenticated linesep get_login_state password_login).
Local Abbreviation by_session := (login_with_phpsessid get_login_state).

Lemma length_lstrip l : length (lstrip l) <= length l.
Proof.
  induction l as [|c l IH]; simpl; [lia|].
  destruct (isspace c); simpl; lia.
Qed.

Lemma lstrip_full l : length (lstrip l) = length l -> lstrip l = l.
Proof.
  destruct l as [|c l]; [reflexivity|]. simpl.
  destruct (isspace c); [|reflexivity].
  pose proof (length_lstrip l). lia.
Qed.

(** A text that [strip] leaves alone has no white space at either end. *)
Lemma strip_fixed s :
  strip s = s -> lstrip s = s /\ lstrip (rev s) = rev s.
Proof.
  intros Hs. unfold strip in Hs.
  assert (lstrip s = s) as H1.
  { apply lstrip_full. apply (f_equal (@length _)) in Hs.
    rewrite length_rev in Hs.
    pose proof (length_lstrip (rev (lstrip s))) as Ha.
    rewrite length_rev in Ha. pose proof (length_lstrip s). lia. }
  split; [exact H1|]. rewrite H1 in Hs.
  apply (f_equal (@rev _)) in Hs. rewrite rev_involutive in Hs. exact Hs.
Qed.

Lemma strip_line s : strip s = s -> strip (s ++ [LF]) = s.
Proof.
  intros Hs. destruct (strip_fixed s Hs) as [H1 H2].
  unfold strip. destruct s as [|c l]; [reflexivity|].
  assert (lstrip ((c :: l) ++ [LF]) = (c :: l) ++ [LF]) as ->.
  { simpl in H1 |- *. destruct (isspace c); [|reflexivity].
    pose proof (length_lstrip l) as Hle. rewrite H1 in Hle. simpl in Hle.
    lia. }
  rewrite rev_app_distr.
  change (rev [LF] ++ rev (c :: l)) with (LF :: rev (c :: l)).
  change (lstrip (LF :: rev (c :: l))) with (lstrip (rev (c :: l))).
  rewrite H2. apply rev_involutive.
Qed.

(** What was written without a carriage return is read back as it was,
    whatever the line end of the platform. *)
Lemma read_back t :
  is_linesep linesep -> CR ∉ t ->
  universal_newlines (write_newlines linesep t) = t.
Proof.
  intros Hsep. induction t as [|c t IH]; intros Hcr; [reflexivity|].
  apply not_elem_of_cons in Hcr as [Hc Ht]. specialize (IH Ht).
  unfold write_newlines in IH |- *. rewrite fmap_cons. simpl.
  destruct (N.eqb_spec c LF) as [->|Hlf].
  - destruct Hsep as [-> | ->]; simpl; rewrite IH; reflexivity.
  - simpl. destruct (N.eqb_spec c CR) as [->|_]; [contradiction|].
    rewrite IH. reflexivity.
Qed.

(** X15: the session saved by a first login is the one a later start logs
    in with.  When there is no credentials file and [ensure_authenticated]
    prompts and succeeds, the file holds the [PHPSESSID] of the session
    followed by a line end, as the platform writes line ends; and on any
    client with that file, whatever the prompt flag and whatever would be
    typed, [ensure_authenticated] is a login with that same [PHPSESSID],
    provided the value has no white space of Unicode at either end and no
    carriage return in it, which the reading would turn into a line
    feed. *)
Theorem saved_session_is_reused c c1 username secret :
  is_linesep linesep ->
  cred_file c = None ->
  ensure true username secret c = Done c1 ->
  exists value,
    cookie c1 = Some value
    /\ encodable value = true
    /\ cred_file c1
       = Some (Decoded (write_newlines linesep (value ++ [LF])))
    /\ (strip value = value -> CR ∉ value ->
        forall later prompt username' secret',
          cred_file later = cred_file c1 ->
          ensure prompt username' secret' later = by_session value later).
Proof.
  intros Hsep Hnone Hdone. unfold ensure_authenticated in Hdone.
  rewrite Hnone in Hdone.
  destruct (interactive_login _ _ username secret c) as [c'|e c'];
    [|discriminate].
  destruct (cookie c') as [value|] eqn:Hcookie; [|discriminate].
  destruct (encodable value) eqn:Henc; [|discriminate].
  injection Hdone as <-. exists value. simpl.
  split; [reflexivity|]. split; [exact Henc|]. split; [reflexivity|].
  intros Hstrip Hcr later prompt username' secret' Hfile.
  unfold ensure_authenticated. rewrite Hfile.
  rewrite (read_back _ Hsep).
  - rewrite (strip_line value Hstrip). reflexivity.
  - intros Hin. apply elem_of_app in Hin as [Hin|Hin]; [exact (Hcr Hin)|].
    apply list_elem_of_singleton in Hin. discriminate.
Qed.

End CredentialsFacts.

(** * The further properties on sample runs *)

Section MoreSamples.
Import Engine.
Import Sample.

Lemma second_head_reachable :
  reachable pickle_dumps sha256_hexdigest data_dir download_flat no_fault
            never ∅ [X; Y] ∅ second_head.
Proof.
  apply (reach_turn _ _ _ _ _ _ _ _ _ (start_with [X; Y])).
  - apply reach_start.
  - vm_compute. reflexivity.
Qed.

(** After the course [X] the queue is [Y] and then the homework. *)
Lemma queue_walked_in_order_witness :
  in_order download_flat [X; Y] ∅ second_head
  /\ (forall x, x ∈ enqueued download_flat [X; Y] (expanded second_head) ->
                x ∈ expanded second_head \/ x ∈ items second_head
                \/ ignored ∅ x = true).
Proof.
  apply (queue_walked_in_order
           pickle_dumps sha256_hexdigest data_dir download_flat no_fault
           never ∅ [X; Y] ∅ second_head second_head_reachable).
Defined.

Lemma counters_are_exact_witness :
  total_of second_head "Course"
  = pending_of "Course" (enqueued download_flat [X; Y] (expanded second_head))
  /\ completed_of second_head "Course"
     = pending_of "Course" (expanded second_head)
  /\ count_of (fullstats second_head) "Course"
     = length (filter (fun x => class_name x = "Course")
                      (expanded second_head)).
Proof.
  apply (counters_are_exact
           pickle_dumps sha256_hexdigest data_dir download_flat no_fault
           never ∅ [X; Y] ∅ second_head second_head_reachable "Course").
Defined.

Lemma completion_accounts_for_every_item_witness :
  items (state_of drained) = []
  /\ forall k, completed_of (state_of drained) k
               = total_of (state_of drained) k.
Proof.
  destruct (completion_accounts_for_every_item
              pickle_dumps sha256_hexdigest data_dir download_flat no_fault
              never ∅ [X; Y; Z'] ∅ 5 (state_of drained))
    as (Hq & _ & _ & Hall); [vm_compute; reflexivity|].
  split; [exact Hq|]. apply Hall. intros x _. reflexivity.
Defined.

Lemma run_leaves_one_resume_file_witness :
  done (state_of stopped) = true
  /\ files (state_of stopped)
     = <["/home/u/ilmsdump.out/resume-9f86d08.pickle" :=
           mkResume [Y; Z'; hw] ∅]> ∅.
Proof.
  destruct (run_leaves_one_resume_file
              pickle_dumps sha256_hexdigest data_dir download_flat no_fault
              always ∅ [X; Y; Z'] ∅ 5 (outcome_of stopped) (state_of stopped))
    as (Hd & _ & Hf); [vm_compute; reflexivity|].
  split; [exact Hd|exact Hf].
Defined.


Lemma interrupted_then_resumed_witness :
  exists fuelC stC,
    fuelC <= 5
    /\ run_with download_flat never fuelC ∅ (items (state_of stopped)) ∅
       = Some (Completed, stC)
    /\ expanded (state_of drained)
       = expanded (state_of stopped) ++ expanded stC.
Proof.
  apply (interrupted_then_resumed
           pickle_dumps sha256_hexdigest data_dir download_flat no_fault
           always ∅ ∅ [X; Y; Z'] ∅ 5 5
           "/home/u/ilmsdump.out/resume-9f86d08.pickle" X
           (state_of stopped) (state_of drained));
    vm_compute; reflexivity.
Defined.

Lemma stopped_run_resumes_from_its_queue_witness :
  main_resumed pickle_dumps sha256_hexdigest data_dir download_faulty
               no_fault never pickle_load 5 (files (state_of failed))
               "/home/u/ilmsdump.out/resume-9f86d08.pickle" ∅
  = Ran (run_with download_faulty never 5 (files (state_of failed))
                  [X; Y; Z'] ∅).
Proof.
  destruct (stopped_run_resumes_from_its_queue
              pickle_dumps pickle_load sha256_hexdigest data_dir
              download_faulty no_fault never ∅ [X; Y; Z'] ∅ ∅ 5 5
              (outcome_of failed) (state_of failed))
    as [[_ H] _]; [reflexivity|vm_compute; reflexivity|exact H].
Defined.
End MoreSamples.

Section ReporterSamples.
Import Reporter.

(** Readings in whole seconds, and the quotient kept as the pair of the
    bytes and the seconds: after the samples at 1 s and 2 s, an update at
    3 s measures from the first sample, and an update on which the clock
    reads 1 s again raises. *)
Lemma rates_keep_the_last_twenty_witness :
  let slope (b old : Z) (now then_ : Z) :=
    if decide (now = then_) then None else Some ((b - old)%Z, (now - then_)%Z)
  in
  let rates := [(1%Z, 100%Z); (2%Z, 400%Z)] in
  rates_after (0%Z, 1%Z) slope rates = Some rates
  /\ update_rates (0%Z, 1%Z) slope 3%Z 700%Z rates
     = Some ((600%Z, 2%Z), rates ++ [(3%Z, 700%Z)])
  /\ update_rates (0%Z, 1%Z) slope 1%Z 700%Z rates = None.
Proof.
  intros slope rates.
  assert (slope_of_equal_readings slope) as Hzero.
  { intros b old now. unfold slope. rewrite decide_True by reflexivity.
    reflexivity. }
  assert (rates_after (0%Z, 1%Z) slope rates = Some rates) as Hrates
      by (vm_compute; reflexivity).
  split; [exact Hrates|]. split.
  - destruct (rates_keep_the_last_twenty
                (0%Z, 1%Z) slope rates rates 3%Z 700%Z Hzero Hrates)
      as (_ & _ & -> & _).
    vm_compute. reflexivity.
  - destruct (rates_keep_the_last_twenty
                (0%Z, 1%Z) slope rates rates 1%Z 700%Z Hzero Hrates)
      as (_ & _ & _ & Hraise).
    exact (proj1 (Hraise 100%Z eq_refl)).
Defined.
End ReporterSamples.

Section CredentialsSamples.
Import Credentials.

(** A server that knows the session [abc123] of [alice] and nothing else. *)
Lemma saved_session_is_reused_witness :
  let get_login_state (s : Text) :=
    (if decide (s = text "abc123") then Some (text "alice") else None,
     Some s) in
  let password_login (u p : Text) := (None : option Text, false) in
  exists value,
    cookie (mkClient (Some (Decoded (text "abc123" ++ [LF])))
                     (Some (text "abc123")))
    = Some value
    /\ forall later prompt username' secret',
        cred_file later = Some (Decoded (text "abc123" ++ [LF])) ->
        ensure_authenticated [LF] get_login_state password_login
                             prompt username' secret' later
        = login_with_phpsessid get_login_state (text "abc123") later.
Proof.
  intros get_login_state password_login.
  destruct (saved_session_is_reused
              [LF] get_login_state password_login
              (mkClient None None)
              (mkClient (Some (Decoded (text "abc123" ++ [LF])))
                        (Some (text "abc123")))
              [] (text "abc123") (or_introl eq_refl) eq_refl eq_refl)
    as (value & Hc & _ & _ & Hlater).
  exists value. split; [exact Hc|].
  simpl in Hc. injection Hc as <-.
  apply Hlater; [vm_compute; reflexivity|].
  vm_compute. intros Hin. repeat (apply elem_of_cons in Hin as [Hin|Hin];
                                  [discriminate|]).
  apply elem_of_nil in Hin. exact Hin.
Defined.

(** A carriage return in the value is read back as a line feed, and a
    no-break space at its end is stripped: the later login is then with
    another [PHPSESSID] than the one saved. *)
Lemma session_not_read_back_as_saved :
  let ab_cr_cd := text "ab" ++ [CR] ++ text "cd" in
  let ab_nbsp := text "ab" ++ [160%N] in
  strip ab_cr_cd = ab_cr_cd
  /\ strip (universal_newlines (write_newlines [LF] (ab_cr_cd ++ [LF])))
     = text "ab" ++ [LF] ++ text "cd"
  /\ strip (universal_newlines (write_newlines [LF] (ab_nbsp ++ [LF])))
     = text "ab".
Proof. vm_compute. repeat split. Qed.

End CredentialsSamples.

Section AcyclicSample.
Import Engine.
Import Sample.

End AcyclicSample.

(** * The meaning of a skip rule *)

Section RuleFacts.
Import Engine.

Lemma class_name_not_identity x y : class_name x <> as_id_string y.
Proof.
  unfold as_id_string. destruct x, y; simpl; intros H; simplify_eq.
Qed.

(** X19: a rule written as an identity string, as in [--ignore=Course-74],
    ignores exactly the items of that class with that id, and a rule written
    as a class name, as in [--ignore=Video], ignores exactly the items of
    that class: since no class name is an identity string, neither kind of
    rule is ever taken for the other. *)
Theorem ignore_rules_mean_what_they_say x y :
  (ignored {[as_id_string y]} x = true
   <-> class_name x = class_name y /\ item_id x = item_id y)
  /\ (ignored {[class_name y]} x = true <-> class_name x = class_name y).
Proof.
  unfold ignored. split; split.
  - intros H. apply orb_true_iff in H as [H|H];
      apply bool_decide_eq_true, elem_of_singleton in H.
    + contradiction (class_name_not_identity x y H).
    + apply as_id_string_parts. exact H.
  - intros [Hc Hi]. apply orb_true_iff. right.
    apply bool_decide_eq_true, elem_of_singleton.
    unfold as_id_string. rewrite Hc, Hi. reflexivity.
  - intros H. apply orb_true_iff in H as [H|H];
      apply bool_decide_eq_true, elem_of_singleton in H.
    + exact H.
    + symmetry in H. contradiction (class_name_not_identity y x H).
  - intros Hc. apply orb_true_iff. left.
    apply bool_decide_eq_true, elem_of_singleton. exact Hc.
Qed.
End RuleFacts.

Section ExpandedSample.
Import Engine.
Import Sample.

(** The homework of the course, in the run that drains [X; Y; Z']. *)
Lemma only_met_items_are_expanded_witness :
  ignored ∅ hw = false
  /\ (hw ∈ [X; Y; Z']
      \/ exists w, w ∈ expanded (state_of drained)
                   /\ hw ∈ children download_flat w).
Proof.
  apply (only_met_items_are_expanded
           pickle_dumps sha256_hexdigest data_dir download_flat no_fault
           never ∅ [X; Y; Z'] ∅ 5 (outcome_of drained) (state_of drained) hw).
  - vm_compute. reflexivity.
  - assert (expanded (state_of drained) = [X; Y; Z'; hw]) as ->
      by (vm_compute; reflexivity).
    do 3 (apply elem_of_cons; right). apply elem_of_cons. left. reflexivity.
Defined.
End ExpandedSample.

(** * The name of a resume file *)

Section ResumeFileName.
Import Engine.
Context {bytes : Type}.
(** Two saves, each with the [pickle.dumps] of its process. *)
Variable dumps1 dumps2 : ResumeData -> bytes.
Variable sha256_hexdigest : bytes -> string.
Variable data_dir : string.

Lemma append_cancel_l p a b : p +:+ a = p +:+ b -> a = b.
Proof.
  induction p as [|c p IH]; simpl; intros H; [exact H|].
  injection H as H'. auto.
Qed.

Lemma chars_of_append s t :
  String.list_ascii_of_string (s +:+ t)
  = String.list_ascii_of_string s ++ String.list_ascii_of_string t.
Proof.
  induction s as [|c s IH]; [reflexivity|]. simpl. rewrite IH. reflexivity.
Qed.

Lemma append_cancel_r s a b : a +:+ s = b +:+ s -> a = b.
Proof.
  intros H. apply (f_equal String.list_ascii_of_string) in H.
  rewrite !chars_of_append in H. apply app_inv_tail in H.
  apply (f_equal String.string_of_list_ascii) in H.
  rewrite !String.string_of_list_ascii_of_string in H. exact H.
Qed.

Lemma resume_path_inj (b1 b2 : bytes) :
  resume_path sha256_hexdigest data_dir b1
  = resume_path sha256_hexdigest data_dir b2 ->
  String.substring 0 7 (sha256_hexdigest b1)
  = String.substring 0 7 (sha256_hexdigest b2).
Proof.
  unfold resume_path. intros H.
  do 3 apply append_cancel_l in H. apply append_cancel_r in H. exact H.
Qed.

(** C7, as the code has it: a save writes the pickled bytes to
    [data_dir/resume-<the first seven digits of their SHA-256>.pickle].
    Saving again the same bytes (the same snapshot pickled by the same
    process on the same objects) names the same file and changes nothing;
    and whenever the digests of two saves agree on their first seven digits
    the second overwrites the file of the first and adds none.  When they
    differ, as they may for one snapshot pickled by two processes, the
    second save goes to another path and both files are there. *)
Theorem resume_file_is_named_by_its_digest data (st : @State bytes) :
  let digest1 := String.substring 0 7 (sha256_hexdigest (dumps1 data)) in
  let digest2 := String.substring 0 7 (sha256_hexdigest (dumps2 data)) in
  let saved := create_resume_file dumps1 sha256_hexdigest data_dir data st in
  let again :=
    create_resume_file dumps2 sha256_hexdigest data_dir data saved.2 in
  saved.1 = data_dir +:+ "/" +:+ "resume-" +:+ digest1 +:+ ".pickle"
  /\ again.1 = data_dir +:+ "/" +:+ "resume-" +:+ digest2 +:+ ".pickle"
  /\ files saved.2 = <[saved.1 := dumps1 data]> (files st)
  /\ files again.2 = <[again.1 := dumps2 data]> (files saved.2)
  /\ (dumps1 data = dumps2 data -> again.1 = saved.1 /\ again.2 = saved.2)
  /\ (digest1 = digest2 ->
      again.1 = saved.1 /\ dom (files again.2) = dom (files saved.2))
  /\ (digest1 <> digest2 ->
      again.1 <> saved.1
      /\ files again.2 !! saved.1 = Some (dumps1 data)
      /\ files again.2 !! again.1 = Some (dumps2 data)
      /\ (files st !! again.1 = None ->
          size (files again.2) = S (size (files saved.2)))).
Proof.
  intros digest1 digest2 saved again.
  split; [reflexivity|]. split; [reflexivity|].
  split; [reflexivity|]. split; [reflexivity|].
  split; [|split].
  - intros Hb. subst saved again. unfold create_resume_file. simpl.
    rewrite <- Hb. rewrite insert_insert_eq. split; reflexivity.
  - intros Hd. assert (again.1 = saved.1) as Hp.
    { subst saved again digest1 digest2. simpl. unfold resume_path.
      rewrite Hd. reflexivity. }
    split; [exact Hp|]. subst saved again. simpl in *.
    rewrite Hp, insert_insert_eq, !dom_insert_L. reflexivity.
  - intros Hd. assert (again.1 <> saved.1) as Hp.
    { intros Hp. apply Hd. subst saved again digest1 digest2. simpl in Hp.
      apply resume_path_inj in Hp. congruence. }
    split; [exact Hp|]. subst saved again. simpl in *.
    split; [|split].
    + rewrite lookup_insert_ne by exact Hp. apply lookup_insert_eq.
    + apply lookup_insert_eq.
    + intros Hnew. apply map_size_insert_None.
      rewrite lookup_insert_ne by congruence. exact Hnew.
Qed.
End ResumeFileName.

Section ResumeFileSamples.
Import Engine.
Import Sample.

(** C7 as stated fails: the same pending list and the same two rules, saved
    by two processes that iterate over the set of rules in opposite orders,
    give two blobs, two digests and two paths; after the second save both
    files are in the data directory. *)
Lemma two_processes_name_two_files :
  let saved := create_resume_file (dumps_in first_process) digest data_dir
                                  two_rules fresh in
  let again := create_resume_file (dumps_in second_process) digest data_dir
                                  two_rules saved.2 in
  saved.1 = "/home/u/ilmsdump.out/resume-CourseV.pickle"
  /\ again.1 = "/home/u/ilmsdump.out/resume-VideoCo.pickle"
  /\ again.1 <> saved.1
  /\ size (files saved.2) = 1
  /\ size (files again.2) = 2.
Proof.
  simpl. repeat split; try (vm_compute; reflexivity).
  vm_compute. discriminate.
Qed.

(** One process saving its snapshot twice, and two processes. *)
Lemma resume_file_is_named_by_its_digest_witness :
  (let saved := create_resume_file (dumps_in first_process) digest data_dir
                                   two_rules fresh in
   let again := create_resume_file (dumps_in first_process) digest data_dir
                                   two_rules saved.2 in
   again.1 = saved.1 /\ again.2 = saved.2)
  /\ (let saved := create_resume_file (dumps_in first_process) digest
                                      data_dir two_rules fresh in
      let again := create_resume_file (dumps_in second_process) digest
                                      data_dir two_rules saved.2 in
      again.1 <> saved.1).
Proof.
  split.
  - apply (resume_file_is_named_by_its_digest
             (dumps_in first_process) (dumps_in first_process) digest data_dir
             two_rules fresh).
    reflexivity.
  - apply (resume_file_is_named_by_its_digest
             (dumps_in first_process) (dumps_in second_process) digest
             data_dir two_rules fresh).
    vm_compute. discriminate.
Defined.
End ResumeFileSamples.
